(** * numsim-core: the multi-key store and the parameter validation controller

    A shallow embedding of [query_map.h] (the multi-key value store) and of
    [input_parameter_controller.h] (rules, parameters and the controller),
    together with the [MockParameterHandler] the rule chain is run against.

    - [std::unordered_map<K, V>] is a [gmap K V];
    - [std::any] is the tagged union [any];
    - a C++ exception is a value of [exception]; code that may throw while
      mutating an object lives in the monad [M S], whose state survives a
      throw (nothing is rolled back when an exception propagates);
    - a C++ reference into a container is a [reference]: the value it
      designates and the write through it. *)

From Stdlib Require Import ZArith String List.
From stdpp Require Import base option strings pretty gmap.

Open Scope Z_scope.
Open Scope string_scope.
Open Scope list_scope.

(** ** Exceptions *)

Inductive exception : Type :=
  | invalid_argument (what : string)   (* std::invalid_argument(what) *)
  | out_of_range                       (* std::out_of_range, from unordered_map::at *)
  | bad_any_cast.                      (* std::bad_any_cast *)

Inductive except (A : Type) : Type :=
  | Normal (a : A)
  | Raise (e : exception).
Arguments Normal {A} a.
Arguments Raise {A} e.

(** ** State that survives a throw *)

Definition M (S A : Type) : Type := S → S * except A.

#[global] Instance M_ret {S} : MRet (M S) := λ A a s, (s, Normal a).
#[global] Instance M_bind {S} : MBind (M S) := λ A B f m s,
  match m s with
  | (s', Normal a) => f a s'
  | (s', Raise e) => (s', Raise e)
  end.

(** [for (auto &x : l) body(x);] *)
Fixpoint for_each {S A} (body : A → M S unit) (l : list A) : M S unit :=
  match l with
  | [] => mret tt
  | x :: l' => body x ;; for_each body l'
  end.

(** ** std::any *)

Inductive any : Type :=
  | any_empty                 (* std::any{} *)
  | any_int (z : Z)           (* holds an int *)
  | any_string (s : string)   (* holds a std::string *)
  | any_bool (b : bool).      (* holds a bool *)

(** The types a [std::any] is made from and cast to. *)
Class AnyType (T : Type) := {
  make_any : T → any;
  any_cast_opt : any → option T;
  any_cast_make_any : ∀ v, any_cast_opt (make_any v) = Some v
}.

(** [std::any_cast<T>(a)]: throws [std::bad_any_cast] on another type. *)
Definition any_cast {T} `{AnyType T} (a : any) : except T :=
  match any_cast_opt a with
  | Some v => Normal v
  | None => Raise bad_any_cast
  end.

#[global, refine] Instance int_any : AnyType Z := {|
  make_any := any_int;
  any_cast_opt a := match a with any_int z => Some z | _ => None end
|}.
Proof. reflexivity. Defined.

#[global, refine] Instance string_any : AnyType string := {|
  make_any := any_string;
  any_cast_opt a := match a with any_string s => Some s | _ => None end
|}.
Proof. reflexivity. Defined.

#[global, refine] Instance bool_any : AnyType bool := {|
  make_any := any_bool;
  any_cast_opt a := match a with any_bool b => Some b | _ => None end
|}.
Proof. reflexivity. Defined.

(** ** References *)

(** A [A&] into an object of type [S]: the value designated and the object
    after an assignment through the reference. *)
Record reference (S A : Type) : Type := {
  deref : A;
  assign : A → S
}.
Arguments deref {S A} r.
Arguments assign {S A} r v.

(** * query_map.h *)

Module query_map.

(** Key types: [std::string], or an arithmetic type rendered by
    [std::to_string] ([int] here). *)
Inductive key_kind : Type := key_int | key_string.

Definition key_type (k : key_kind) : Type :=
  match k with key_int => Z | key_string => string end.

#[global] Instance key_eq_dec k : EqDecision (key_type k).
Proof. destruct k; apply _. Defined.
#[global] Instance key_countable k : Countable (key_type k).
Proof. destruct k; apply _. Defined.

(** The lambda [str] of [get_list_first] and [get_list_impl]: the key itself
    when it is a [std::string], [std::to_string(key)] otherwise. *)
Definition str (k : key_kind) : key_type k → string :=
  match k with
  | key_int => λ key, pretty (key : Z)
  | key_string => λ key, key
  end.

(** [query_map_data<List>::map_type]: one nested map per key, the innermost
    one holding the type-erased values. *)
Fixpoint map_type (k : key_kind) (ks : list key_kind) : Type :=
  match ks with
  | [] => gmap (key_type k) any
  | k' :: ks' => gmap (key_type k) (map_type k' ks')
  end.

(** [query_map_data<List>::tuple_type]. *)
Fixpoint tuple_type (k : key_kind) (ks : list key_kind) : Type :=
  match ks with
  | [] => key_type k
  | k' :: ks' => key_type k * tuple_type k' ks'
  end.

(** A default-constructed map. *)
Definition map_empty (k : key_kind) (ks : list key_kind) : map_type k ks :=
  match ks with
  | [] => ∅
  | _ :: _ => ∅
  end.

(** [set_imp]: [map[first]] default-constructs a missing nested map;
    the last key is assigned [func(data)], with [func] a function of [data]
    that returns. *)
Fixpoint set_imp {T} (k : key_kind) (ks : list key_kind)
    : map_type k ks → T → (T → any) → tuple_type k ks → map_type k ks :=
  match ks with
  | [] => λ map data func last, <[last := func data]> map
  | k' :: ks' => λ map data func keys,
      let first := fst keys in
      <[first := set_imp k' ks' (default (map_empty k' ks') (map !! first))
                   data func (snd keys)]> map
  end.

(** [query_fun_sig]: a [std::function<void(type_erasure_type &)>].  The
    callback may assign to the value it is given, may change the state [W] it
    has captured, and may throw; it reaches the store through its argument
    only. *)
Definition query_fun_sig (W : Type) : Type := M (any * W) unit.

Record t (k : key_kind) (ks : list key_kind) (W : Type) : Type := {
  m_data : map_type k ks;
  m_queries : list (query_fun_sig W * tuple_type k ks)
}.
Arguments m_data {k ks W} _.
Arguments m_queries {k ks W} _.

(** [query_map()] *)
Definition create (k : key_kind) (ks : list key_kind) (W : Type) : t k ks W :=
  {| m_data := map_empty k ks; m_queries := [] |}.

(** [void set(T &data, Func &&func, Keys &&...keys)] *)
Definition set {T k ks W} (q : t k ks W) (data : T) (func : T → any)
    (keys : tuple_type k ks) : t k ks W * unit :=
  ({| m_data := set_imp k ks (m_data q) data func keys;
      m_queries := m_queries q |}, tt).

(** [void query(query_fun_sig &&func, Keys &&...keys)] *)
Definition query {k ks W} (q : t k ks W) (func : query_fun_sig W)
    (keys : tuple_type k ks) : t k ks W :=
  {| m_data := m_data q; m_queries := m_queries q ++ [(func, keys)] |}.

(** The exception of a failed lookup. *)
Definition not_found {k} (key : key_type k) : exception :=
  invalid_argument ("key " +:+ str k key +:+ " not found").

(** [get_list_impl(map, key_list, std::index_sequence<>)] *)
Definition get_list_impl_nil {S A} (map : reference S A) : except (reference S A) :=
  Normal map.

(** [get_list_impl(map, key_list, std::index_sequence<Last>)] *)
Definition get_list_impl_last {S k} (map : reference S (gmap (key_type k) any))
    (key : key_type k) : except (reference S any) :=
  match deref map !! key with
  | None => Raise (not_found key)
  | Some v =>
      Normal {| deref := v; assign := λ v', assign map (<[key := v']> (deref map)) |}
  end.

(** [get_list_first(key_list, std::index_sequence<First, Seq...>)]; [impl] is
    the overload of [get_list_impl] chosen for [Seq...]. *)
Definition get_list_first {k V R} (m_data : gmap (key_type k) V) (key : key_type k)
    (impl : reference (gmap (key_type k) V) V → except R) : except R :=
  match m_data !! key with
  | None => Raise (not_found key)
  | Some sub => impl {| deref := sub; assign := λ sub', <[key := sub']> m_data |}
  end.

(** There is an overload of [get_list_impl] for an empty index sequence and
    one for a single index, and no other: [get] and [final_queries] are
    instantiated for stores of one key and of two keys. *)
Inductive arity : Type :=
  | one_key (k : key_kind)
  | two_keys (k k' : key_kind).

Definition first_key (a : arity) : key_kind :=
  match a with one_key k => k | two_keys k _ => k end.
Definition more_keys (a : arity) : list key_kind :=
  match a with one_key _ => [] | two_keys _ k' => [k'] end.

Abbreviation map_of a := (map_type (first_key a) (more_keys a)).
Abbreviation tuple_of a := (tuple_type (first_key a) (more_keys a)).

Definition get_list (a : arity)
    : map_of a → tuple_of a → except (reference (map_of a) any) :=
  match a with
  | one_key k => λ m_data key_list,
      get_list_first (k := k) m_data key_list get_list_impl_nil
  | two_keys k k' => λ m_data key_list,
      get_list_first (k := k) m_data (fst key_list)
        (λ map, get_list_impl_last (k := k') map (snd key_list))
  end.

(** [auto &get(Keys &&...keys)] *)
Definition get {a W} (q : t (first_key a) (more_keys a) W) (keys : tuple_of a)
    : except (reference (map_of a) any) :=
  get_list a (m_data q) keys.

(** The body of the loop of [final_queries], [func(get_list_first(id, ...))]:
    the callback is run on the reference the keys resolve to.  The state is
    the map and what the callbacks have captured. *)
Definition run_query {a W} (entry : query_fun_sig W * tuple_of a)
    : M (map_of a * W) unit := λ s,
  let '(func, id) := entry in
  match get_list a (fst s) id with
  | Raise e => (s, Raise e)
  | Normal r =>
      let '((v', w'), res) := func (deref r, snd s) in
      ((assign r v', w'), res)
  end.

(** [final_queries] *)
Definition final_queries {a W} (q : t (first_key a) (more_keys a) W) (w : W)
    : (t (first_key a) (more_keys a) W * W) * except unit :=
  let '((m, w'), res) := for_each run_query (m_queries q) (m_data q, w) in
  (({| m_data := m; m_queries := m_queries q |}, w'), res).

End query_map.

(** * The lookup of the spec *)

Module query_map_spec.
Import query_map.

(** Follows the spec, for stores of any number of keys: [get] "walks
    intermediate mappings" and "fails with KeyNotFound(key, position) the first
    time any key along the path, including the final one, is absent". *)
Inductive KeyNotFound : Type :=
  | key_not_found (key_text : string) (position : nat).

Fixpoint spec_get (k : key_kind) (ks : list key_kind) (position : nat)
    : map_type k ks → tuple_type k ks → KeyNotFound + any :=
  match ks with
  | [] => λ m key,
      match m !! key with
      | None => inl (key_not_found (str k key) position)
      | Some v => inr v
      end
  | k' :: ks' => λ m keys,
      match m !! fst keys with
      | None => inl (key_not_found (str k (fst keys)) position)
      | Some sub => spec_get k' ks' (S position) sub (snd keys)
      end
  end.

End query_map_spec.

(** * MockParameterHandler *)

(** The rules and parameters are templates over [ParameterHandler], which
    provides [contains], [get<T>] and [insert]; the handler they are
    instantiated with is [MockParameterHandler]. *)
Module MockParameterHandler.

Record t : Type := { parameters : gmap string any }.

(** [MockParameterHandler()] *)
Definition create : t := {| parameters := ∅ |}.

(** [bool contains(const std::string &name) const] *)
Definition contains (h : t) (name : string) : bool :=
  bool_decide (is_Some (parameters h !! name)).

(** [template <typename T> T get(const std::string &name) const]:
    [std::any_cast<T>(parameters.at(name))]. *)
Definition get {T} `{AnyType T} (h : t) (name : string) : except T :=
  match parameters h !! name with
  | None => Raise out_of_range
  | Some a => any_cast a
  end.

(** [template <typename T> void insert(const std::string &name, T value)]:
    [parameters[name] = value]. *)
Definition insert {T} `{AnyType T} (h : t) (name : string) (value : T) : t :=
  {| parameters := <[name := make_any value]> (parameters h) |}.

End MockParameterHandler.

(** * input_parameter_controller.h *)

(** [operator<] of the parameter type; [value > m_high] is [m_high < value]. *)
Class Less (T : Type) := {
  less : T → T → bool;
  less_irrefl : ∀ x, less x x = false
}.

#[global, refine] Instance int_less : Less Z := {| less := Z.ltb |}.
Proof. apply Z.ltb_irrefl. Defined.

Module input_parameter.
Import MockParameterHandler.

(** The classes derived from [input_parameter_check_base<T, ...>], with
    their data members. *)
Inductive check_base (T : Type) : Type :=
  | is_required
  | check_range (m_low m_high : T)
  | set_default (m_value : T)
  | check_data_type.
Arguments is_required {T}.
Arguments check_range {T} m_low m_high.
Arguments set_default {T} m_value.
Arguments check_data_type {T}.

Section checks.
Context {T : Type} `{AnyType T} `{Less T}.

(** [name] is [this->m_para.name()], the name of the owning parameter. *)
Variable name : string.

(** [is_required::check] *)
Definition is_required_check : M t unit := λ input,
  if negb (contains input name)
  then (input, Raise (invalid_argument ("Parameter " +:+ name +:+ " is missing!")))
  else (input, Normal tt).

(** [check_range::check] *)
Definition check_range_check (m_low m_high : T) : M t unit := λ input,
  if contains input name then
    match get input name with
    | Raise e => (input, Raise e)
    | Normal value =>
        if less value m_low || less m_high value
        then (input, Raise (invalid_argument ("Parameter " +:+ name +:+ " out of range")))
        else (input, Normal tt)
    end
  else (input, Normal tt).

(** [set_default::check] *)
Definition set_default_check (m_value : T) : M t unit := λ input,
  if negb (contains input name)
  then (insert input name m_value, Normal tt)
  else (input, Normal tt).

(** [check_data_type::check]: the typed read is made and its value dropped;
    an exception of the read is thrown again. *)
Definition check_data_type_check : M t unit := λ input,
  if contains input name then
    match get (T := T) input name with
    | Raise e => (input, Raise e)
    | Normal _ => (input, Normal tt)
    end
  else (input, Normal tt).

(** The virtual call [check->check(input)]. *)
Definition check (c : check_base T) : M t unit :=
  match c with
  | is_required => is_required_check
  | check_range m_low m_high => check_range_check m_low m_high
  | set_default m_value => set_default_check m_value
  | check_data_type => check_data_type_check
  end.

End checks.

(** [input_parameter<T, KeyType, ParameterHandler>], with [KeyType] a
    [std::string]. *)
Record t (T : Type) : Type := {
  name : string;
  m_checks : list (check_base T)
}.
Arguments name {T} _.
Arguments m_checks {T} _.

(** [input_parameter(const KeyType &name)] *)
Definition create {T} (name : string) : t T :=
  {| name := name; m_checks := [] |}.

(** [add<Check>(args...)]: [m_checks.push_back(...)], returning [*this]. *)
Definition add {T} (p : t T) (c : check_base T) : t T :=
  {| name := name p; m_checks := m_checks p ++ [c] |}.

(** [check_parameter] *)
Definition check_parameter {T} `{AnyType T} `{Less T} (p : t T)
    : M MockParameterHandler.t unit :=
  for_each (check (name p)) (m_checks p).

End input_parameter.

Module input_parameter_controller.

(** What a [std::unique_ptr<input_parameter_base<...>>] of the controller
    points to: an [input_parameter<T, ...>] for some [T]. *)
Record input_parameter_base : Type := {
  param_type : Type;
  param_any : AnyType param_type;
  param_less : Less param_type;
  param : input_parameter.t param_type
}.

(** The virtual call [check->check_parameter(parameter)]. *)
Definition base_check_parameter (p : input_parameter_base)
    : M MockParameterHandler.t unit :=
  @input_parameter.check_parameter _ (param_any p) (param_less p) (param p).

Record t : Type := {
  m_data : gmap string input_parameter_base
}.

(** [input_parameter_controller() = default] *)
Definition create : t := {| m_data := ∅ |}.

(** [insert<T>(name)]: [m_data[name]] is made to own a new parameter, and a
    reference to that parameter is returned (the one [add] is called on). *)
Definition insert {T} `{AnyType T} `{Less T} (c : t) (name : string)
    : t * reference t (input_parameter.t T) :=
  let para := input_parameter.create name in
  ({| m_data := <[name := {| param := para |}]> (m_data c) |},
   {| deref := para;
      assign := λ para', {| m_data := <[name := {| param := para' |}]> (m_data c) |} |}).

(** [operator=(input_parameter_controller &&data)], as seen from the
    destination [this]. *)
Definition move_assign (this data : t) : t :=
  if bool_decide (m_data this = ∅) then
    {| m_data := m_data data |}
  else
    {| m_data := map_fold (λ key check m, <[key := check]> m) (m_data this) (m_data data) |}.

(** [input_parameter_controller(input_parameter_controller &&data)] *)
Definition move_construct (data : t) : t := {| m_data := m_data data |}.

(** The loop of [check_parameter] over the entries in the order [entries]. *)
Definition check_parameter_order (entries : list (string * input_parameter_base))
    : M MockParameterHandler.t unit :=
  for_each (λ entry, base_check_parameter (snd entry)) entries.

(** [check_parameter(ParameterHandler &parameter)].  The order in which a
    [std::unordered_map] is traversed is not specified; [map_to_list] is one
    order, and what is proved of [check_parameter] is proved of
    [check_parameter_order] for every order of the entries. *)
Definition check_parameter (c : t) : M MockParameterHandler.t unit :=
  check_parameter_order (map_to_list (m_data c)).

(** The name of the parameter pointed to. *)
Abbreviation name_of spec := (input_parameter.name (param spec)).

(** Every parameter is stored under its own name. *)
Definition names_ok (c : t) : Prop :=
  map_Forall (λ key spec, name_of spec = key) (m_data c).

End input_parameter_controller.

(** * Stores and parameters used as examples *)

Module examples.
Import query_map.

(** A store keyed by (int, string), as in the tests. *)
Definition store_empty : query_map.t key_int [key_string] unit :=
  create key_int [key_string] unit.

(** [set(data = 7, value_gen, 1, "2")] *)
Definition store_1_2 : query_map.t key_int [key_string] unit :=
  fst (set store_empty 7 make_any (1, "2")).

(** The parameter of the scenario of the spec: "timeout", an int with
    [check_range(1, 60)] and [set_default(30)]. *)
Definition timeout : input_parameter.t Z :=
  input_parameter.add
    (input_parameter.add (input_parameter.create "timeout")
       (input_parameter.check_range 1 60))
    (input_parameter.set_default 30).

(** The parameter of [TestMultipleChecks_Fail]: [is_required],
    [check_range(0, 100)], [set_default(50)]. *)
Definition multi_param : input_parameter.t Z :=
  input_parameter.add
    (input_parameter.add
       (input_parameter.add (input_parameter.create "multi_param")
          input_parameter.is_required)
       (input_parameter.check_range 0 100))
    (input_parameter.set_default 50).

(** Two controllers: [controller_a] has "x" without rules and "y";
    [controller_b] has "x" with [is_required]. *)
Definition controller_a : input_parameter_controller.t :=
  fst (input_parameter_controller.insert (T := Z)
         (fst (input_parameter_controller.insert (T := Z)
                 input_parameter_controller.create "x")) "y").

Definition controller_b : input_parameter_controller.t :=
  let r := snd (input_parameter_controller.insert (T := Z)
                  input_parameter_controller.create "x") in
  assign r (input_parameter.add (deref r) input_parameter.is_required).

(** Callbacks that log their number in a captured list; the first also
    assigns 56 to the value it is given. *)
Definition log_1 : query_fun_sig (list nat) :=
  λ s, ((any_int 56, snd s ++ [1%nat]), Normal tt).
Definition log_2 : query_fun_sig (list nat) :=
  λ s, ((fst s, snd s ++ [2%nat]), Normal tt).
Definition log_3 : query_fun_sig (list nat) :=
  λ s, ((fst s, snd s ++ [3%nat]), Normal tt).

(** [set(55, value_gen, 1, "key3")] and the first callback registered. *)
Definition logged_one : query_map.t key_int [key_string] (list nat) :=
  query (fst (set (create key_int [key_string] (list nat)) 55 make_any (1, "key3")))
    log_1 (1, "key3").

(** [logged_one] once its query has run. *)
Definition logged_one_after : query_map.t key_int [key_string] (list nat) :=
  query (fst (set (create key_int [key_string] (list nat)) 56 make_any (1, "key3")))
    log_1 (1, "key3").

(** Two more callbacks registered; the keys of the second one are not in
    the store. *)
Definition logged_three : query_map.t key_int [key_string] (list nat) :=
  query (query logged_one log_2 (3, "nonexistent")) log_3 (1, "key3").

(** The fixtures of the tests. *)
Abbreviation qmap := (create key_int [key_string] unit).
Abbreviation get2 := (get (a := two_keys key_int key_string)).
Abbreviation handler := MockParameterHandler.create.
Abbreviation parameter := (input_parameter.create (T := Z)).

End examples.

(** * parameter_handler.h *)

Module parameter_handler.

(** [parameter_handler<std::string, std::any>] *)
Record t : Type := { m_data : gmap string any }.

(** [parameter_handler()] *)
Definition create : t := {| m_data := ∅ |}.

(** [template <typename T> T &insert(KeyType const &name, T const &value)]:
    [insert_or_assign], and a reference to the value now stored. *)
Definition insert {T} `{AnyType T} (h : t) (name : string) (value : T)
    : t * reference t T :=
  ({| m_data := <[name := make_any value]> (m_data h) |},
   {| deref := value;
      assign := λ value', {| m_data := <[name := make_any value']> (m_data h) |} |}).

(** [template <typename T> const T &get(KeyType const &name) const] *)
Definition get {T} `{AnyType T} (h : t) (name : string) : except T :=
  match m_data h !! name with
  | None => Raise (invalid_argument ("Key " +:+ name +:+ " not found"))
  | Some a => any_cast a
  end.

(** [const TypeErasure &data(KeyType const &name) const] *)
Definition data (h : t) (name : string) : except any :=
  match m_data h !! name with
  | None => Raise (invalid_argument ("Key " +:+ name +:+ " not found"))
  | Some a => Normal a
  end.

(** [auto contains(KeyType const &name) const] *)
Definition contains (h : t) (name : string) : bool :=
  bool_decide (is_Some (m_data h !! name)).

(** [void clear()] *)
Definition clear (h : t) : t := {| m_data := ∅ |}.

End parameter_handler.

(** * input_parser.h *)

Module input_parser.

(** [std::runtime_error(what)] *)
Inductive runtime_error : Type :=
  | std_runtime_error (what : string).

(** [remove_character(input, key)]: [std::remove] and [erase], every [key]
    is taken out of [input]. *)
Fixpoint remove_character (input : string) (key : Ascii.ascii) : string :=
  match input with
  | EmptyString => EmptyString
  | String c rest =>
      if decide (c = key) then remove_character rest key
      else String c (remove_character rest key)
  end.

(** The character ['-']. *)
Definition dash : Ascii.ascii := Ascii.ascii_of_nat 45.

(** [s.find(sub)], with [None] for [npos]. *)
Definition find (s sub : string) : option nat := String.index 0 sub s.

(** A [std::size_t] used as a condition: true unless it is 0. *)
Definition nonzero (pos : option nat) : bool :=
  match pos with
  | Some 0%nat => false
  | _ => true
  end.

Record t : Type := {
  m_arguments : gmap string string;
  m_help : gmap string (string * string)
}.

(** The loop of the constructor, on [argv[i], ..., argv[argc-1]]: [key] is
    [argv[i]] without its dashes; when there is a next token and [find("-")]
    on it is not 0, that token is the value and is skipped. *)
Fixpoint parse (args : list string) (m_arguments : gmap string string)
    : gmap string string :=
  match args with
  | [] => m_arguments
  | arg :: rest =>
      let key := remove_character arg dash in
      match rest with
      | next :: rest' =>
          if nonzero (find next "-")
          then parse rest' (<[key := next]> m_arguments)
          else parse rest (<[key := ""]> m_arguments)
      | [] => parse rest (<[key := ""]> m_arguments)
      end
  end.

(** [input_parser(int &argc, char **argv)], with [argv] the [argc] strings
    of the command line, the name of the program first. *)
Definition create (argv : list string) : t :=
  {| m_arguments := parse (tail argv) ∅; m_help := ∅ |}.

(** [const std::string &value(const std::string &key) const] *)
Definition value (p : t) (key : string) : runtime_error + string :=
  match m_arguments p !! key with
  | None => inl (std_runtime_error "input_parser::value() no matching input found")
  | Some v => inr v
  end.

(** [bool contains(const std::string &key) const] *)
Definition contains (p : t) (key : string) : bool :=
  bool_decide (is_Some (m_arguments p !! key)).

(** [add_help(key, name, description)] *)
Definition add_help (p : t) (key name description : string) : t :=
  {| m_arguments := m_arguments p;
     m_help := <[key := (name, description)]> (m_help p) |}.

(** The entries the constructor makes: a key without dashes and a value
    that does not begin with a dash. *)
Definition entry_ok (key v : string) : Prop :=
  (dash ∉ list_ascii_of_string key) ∧ nonzero (find v "-") = true.

End input_parser.

(** * static_indexing.h *)

Module static_indexing.

(** [type_id] is [unsigned int]: 32 bits, increments wrap around. *)
Definition type_id_modulus : Z := 2 ^ 32.

(** The static members of [static_indexing_inc<Derived>]. *)
Record static_indexing_inc : Type := {
  m_id : Z;
  m_max_id : Z
}.

(** [static inline type_id m_id{0}; static inline type_id m_max_id{0};] *)
Definition initial : static_indexing_inc := {| m_id := 0; m_max_id := 0 |}.

(** [getID]: [m_max_id++; return m_id++;] *)
Definition getID (s : static_indexing_inc) : static_indexing_inc * Z :=
  ({| m_id := (m_id s + 1) mod type_id_modulus;
      m_max_id := (m_max_id s + 1) mod type_id_modulus |},
   m_id s).

(** The initialisers [static_indexing_imp<Type>::value{getID()}] of [n]
    types, one after the other: the identifiers they are given. *)
Fixpoint register (n : nat) (s : static_indexing_inc) : static_indexing_inc * list Z :=
  match n with
  | O => (s, [])
  | S n' =>
      let '(s1, id) := getID s in
      let '(s2, ids) := register n' s1 in
      (s2, id :: ids)
  end.

End static_indexing.

(** * More examples *)

Module more_examples.

(** A command line: two flags with a value and a switch. *)
Definition command_line : list string :=
  ["prog"; "--input"; "mesh.txt"; "-n"; "4"; "--verbose"].

Definition two_pairs : list (string * string) :=
  [("--input", "mesh.txt"); ("-n", "4")].

(** A callback that reads and does not write. *)
Definition read_only : query_map.query_fun_sig (list nat) :=
  λ s, ((fst s, snd s ++ [0%nat]), Normal tt).

Definition store_read_only
    : query_map.t query_map.key_int [query_map.key_string] (list nat) :=
  query_map.query
    (fst (query_map.set
            (query_map.create query_map.key_int [query_map.key_string] (list nat))
            55 make_any (1, "key3")))
    read_only (1, "key3").

(** A store with a value and no query. *)
Definition store_55
    : query_map.t query_map.key_int [query_map.key_string] (list nat) :=
  fst (query_map.set
         (query_map.create query_map.key_int [query_map.key_string] (list nat))
         55 make_any (1, "key3")).

End more_examples.

(** * The loop *)

Lemma for_each_app {S A} (body : A → M S unit) (l1 l2 : list A) (s : S) :
  for_each body (l1 ++ l2) s =
  match for_each body l1 s with
  | (s', Normal _) => for_each body l2 s'
  | (s', Raise e) => (s', Raise e)
  end.
Proof.
  revert s. induction l1 as [|x l1 IH]; intros s; simpl.
  - reflexivity.
  - unfold mbind, M_bind. destruct (body x s) as [s1 [[]|e]]; [apply IH|reflexivity].
Qed.

(** * Properties of the multi-key store *)

Module query_map_facts.
Import query_map query_map_spec.

Lemma spec_get_set_imp {T} k ks pos (m : map_type k ks) (data : T) func keys :
  spec_get k ks pos (set_imp k ks m data func keys) keys = inr (func data).
Proof.
  revert k pos m keys. induction ks as [|k' ks IH]; intros k pos m keys; simpl.
  - by rewrite lookup_insert_eq.
  - rewrite lookup_insert_eq. apply IH.
Qed.

Lemma set_imp_set_imp {T U} k ks (m : map_type k ks)
    (a : T) (fa : T → any) (b : U) (fb : U → any) keys :
  set_imp k ks (set_imp k ks m a fa keys) b fb keys = set_imp k ks m b fb keys.
Proof.
  revert k m keys. induction ks as [|k' ks IH]; intros k m keys; simpl.
  - apply insert_insert_eq.
  - rewrite lookup_insert_eq. simpl. rewrite IH. apply insert_insert_eq.
Qed.

(** The two instances of [get] agree with the walk of the spec, up to the
    position, which the exception does not carry. *)
Lemma get_list_spec_get a (m : map_of a) (keys : tuple_of a) :
  match spec_get (first_key a) (more_keys a) 0 m keys with
  | inl (key_not_found txt _) =>
      get_list a m keys = Raise (invalid_argument ("key " +:+ txt +:+ " not found"))
  | inr v => ∃ r, get_list a m keys = Normal r ∧ deref r = v
  end.
Proof.
  destruct a as [k|k k']; simpl in *; unfold get_list_first.
  - destruct (m !! keys) as [v|]; [eauto|reflexivity].
  - destruct (m !! keys.1) as [sub|]; [|reflexivity].
    unfold get_list_impl_last; simpl.
    destruct (sub !! keys.2) as [v|]; [eauto|reflexivity].
Qed.

Lemma get_set a W T (q : t (first_key a) (more_keys a) W) (data : T) func keys :
  ∃ r, get (fst (set q data func keys)) keys = Normal r ∧ deref r = func data.
Proof.
  unfold get, set; simpl.
  pose proof (get_list_spec_get a
    (set_imp (first_key a) (more_keys a) (m_data q) data func keys) keys) as Hg.
  by rewrite spec_get_set_imp in Hg.
Qed.


(** C1. Round trip through the store: for a store of one or of two keys (the
    stores [get] exists for), every key path and every value [v] of a type
    [T] that [std::any] can hold, after [set] has stored the boxed [v] under
    the keys, [get] with the same keys succeeds and [any_cast<T>] of the value
    it refers to is [v]. *)
Theorem set_get_round_trip a W T `{AnyType T}
    (q : t (first_key a) (more_keys a) W) (v : T) (keys : tuple_of a) :
  ∃ r, get (fst (set q v make_any keys)) keys = Normal r
       ∧ any_cast (deref r) = Normal v.
Proof.
  destruct (get_set a W T q v make_any keys) as (r & Hr & Hv).
  exists r. split; [exact Hr|].
  unfold any_cast. by rewrite Hv, any_cast_make_any.
Qed.

(** C2, as the code has it. [get] fails exactly when some key along the path
    is absent from its mapping, the final key included; it then throws
    [std::invalid_argument] with the message "key <text> not found", where
    <text> is the first absent key, itself when it is a string and its
    [std::to_string] otherwise.  The position of the key is not part of the
    exception.  When no key is absent, [get] returns a reference to the value
    at the path. *)
Theorem get_missing_key a W (q : t (first_key a) (more_keys a) W) (keys : tuple_of a) :
  match spec_get (first_key a) (more_keys a) 0 (m_data q) keys with
  | inl (key_not_found txt _) =>
      get q keys = Raise (invalid_argument ("key " +:+ txt +:+ " not found"))
  | inr v => ∃ r, get q keys = Normal r ∧ deref r = v
  end.
Proof. apply get_list_spec_get. Qed.

(** C2 as stated fails: the exception does not tell which segment of the path
    is missing.  In a store keyed by (int, string), the path (1, "1") fails at
    position 0 in the empty store and at position 1 once (1, "2") is set, and
    both times with the same exception. *)
Lemma get_error_hides_position :
  spec_get key_int [key_string] 0 (m_data examples.store_empty) (1, "1")
    = inl (key_not_found "1" 0)
  ∧ spec_get key_int [key_string] 0 (m_data examples.store_1_2) (1, "1")
    = inl (key_not_found "1" 1)
  ∧ (∃ e, examples.get2 examples.store_empty (1, "1") = Raise e
          ∧ examples.get2 examples.store_1_2 (1, "1") = Raise e)
  ∧ ¬ ∃ position_of : exception → nat,
        ∀ (q : t key_int [key_string] unit) keys txt pos,
          spec_get key_int [key_string] 0 (m_data q) keys = inl (key_not_found txt pos) →
          ∃ e, examples.get2 q keys = Raise e ∧ position_of e = pos.
Proof.
  split; [reflexivity|]. split; [reflexivity|]. split.
  - exists (invalid_argument "key 1 not found"). split; vm_compute; reflexivity.
  - intros [position_of Hpos].
    destruct (Hpos examples.store_empty (1, "1") "1" 0%nat eq_refl) as (e0 & He0 & Hp0).
    destruct (Hpos examples.store_1_2 (1, "1") "1" 1%nat eq_refl) as (e1 & He1 & Hp1).
    vm_compute in He0, He1.
    injection He0 as <-. injection He1 as <-. congruence.
Qed.

(** C3. Last write wins and [set] never fails: [set] is a total function of
    the store (it has no exceptional result), for stores of any number of
    keys; two [set]s under the same keys leave the store that the second
    [set] alone leaves, so there is one entry at the path, and it is the
    second value; and where [get] exists it returns that second value. *)
Theorem set_set_last_write_wins :
  (∀ k ks W T U (q : t k ks W) (x : T) fx (y : U) fy (keys : tuple_type k ks),
     fst (set (fst (set q x fx keys)) y fy keys) = fst (set q y fy keys)
     ∧ spec_get k ks 0 (m_data (fst (set (fst (set q x fx keys)) y fy keys))) keys
       = inr (fy y))
  ∧ (∀ a W T U (q : t (first_key a) (more_keys a) W) (x : T) fx (y : U) fy
       (keys : tuple_of a),
     ∃ r, get (fst (set (fst (set q x fx keys)) y fy keys)) keys = Normal r
          ∧ deref r = fy y).
Proof.
  split.
  - intros k ks W T U q x fx y fy keys. unfold set; simpl. split.
    + f_equal. apply set_imp_set_imp.
    + apply spec_get_set_imp.
  - intros a W T U q x fx y fy keys. apply get_set.
Qed.

(** C9, as the code has it. [set] returns nothing ([void]); it stores
    [func(data)] at the full key path, and the reference to the stored value
    is what a later [get] with the same keys returns. *)
Theorem set_returns_void a W T (q : t (first_key a) (more_keys a) W)
    (data : T) (func : T → any) (keys : tuple_of a) :
  snd (set q data func keys) = tt
  ∧ ∃ r, get (fst (set q data func keys)) keys = Normal r ∧ deref r = func data.
Proof. split; [reflexivity|apply get_set]. Qed.

(** C9 as stated fails: what [set] returns does not determine the stored
    value, so it is no reference to it. *)
Lemma set_result_is_no_reference :
  snd (set (create key_int [] unit) 1 make_any (0 : key_type key_int))
    = snd (set (create key_int [] unit) 2 make_any (0 : key_type key_int))
  ∧ ¬ ∃ stored : unit → any,
        ∀ data : Z,
          stored (snd (set (create key_int [] unit) data make_any (0 : key_type key_int)))
          = make_any data.
Proof.
  split; [reflexivity|].
  intros [stored Hs].
  pose proof (Hs 1) as H1. pose proof (Hs 2) as H2. simpl in H1, H2. congruence.
Qed.

(** C4. [final_queries] runs the registered queries in registration order and
    stops at the first failure.  [query] appends to the list of queries; the
    query registered last runs after all the earlier ones, on the store and
    the captured state they have left, its keys resolved by [get]; and when
    the earlier queries succeed and the keys of the next one do not resolve,
    [final_queries] ends with the exception of [get], in the state the
    earlier queries have left, whatever queries are registered after it. *)
Theorem final_queries_order_and_abort a W
    (q : t (first_key a) (more_keys a) W) (w : W)
    (func : query_fun_sig W) (keys : tuple_of a) :
  m_queries (query q func keys) = m_queries q ++ [(func, keys)]
  ∧ final_queries (query q func keys) w =
      match final_queries q w with
      | ((q1, w1), Raise e) => ((query q1 func keys, w1), Raise e)
      | ((q1, w1), Normal _) =>
          match get q1 keys with
          | Raise e => ((query q1 func keys, w1), Raise e)
          | Normal r =>
              let '((v', w2), res) := func (deref r, w1) in
              (({| m_data := assign r v';
                   m_queries := m_queries q ++ [(func, keys)] |}, w2), res)
          end
      end
  ∧ ∀ later q1 w1 e (q' : t (first_key a) (more_keys a) W),
      m_data q' = m_data q →
      m_queries q' = m_queries q ++ (func, keys) :: later →
      final_queries q w = ((q1, w1), Normal tt) →
      get q1 keys = Raise e →
      final_queries q' w =
        (({| m_data := m_data q1; m_queries := m_queries q' |}, w1), Raise e).
Proof.
  split; [reflexivity|]. split.
  - unfold final_queries, query; simpl. rewrite for_each_app.
    destruct (for_each run_query (m_queries q) (m_data q, w)) as [[m1 w1] [[]|e]];
      simpl; [|reflexivity].
    unfold mbind, M_bind, run_query, get; simpl.
    destruct (get_list a m1 keys) as [r|e]; simpl; [|reflexivity].
    destruct (func (deref r, w1)) as [[v' w2] [[]|e]]; reflexivity.
  - intros later q1 w1 e q' Hd Hq Hrun Hget.
    unfold final_queries in *. rewrite Hq, Hd, for_each_app.
    destruct (for_each run_query (m_queries q) (m_data q, w)) as [[m1 w1'] res].
    injection Hrun as <- <- ->. simpl.
    unfold mbind, M_bind, run_query; simpl.
    unfold get in Hget; simpl in Hget. by rewrite Hget.
Qed.

Lemma final_queries_order_and_abort_witness :
  m_data examples.logged_three = m_data examples.logged_one
  ∧ m_queries examples.logged_three =
      m_queries examples.logged_one
      ++ (examples.log_2, (3, "nonexistent")) :: [(examples.log_3, (1, "key3"))]
  ∧ final_queries (a := two_keys key_int key_string) examples.logged_one [] =
      ((examples.logged_one_after, [1%nat]), Normal tt)
  ∧ get (a := two_keys key_int key_string) examples.logged_one_after (3, "nonexistent")
    = Raise (invalid_argument "key 3 not found")
  ∧ final_queries (a := two_keys key_int key_string) examples.logged_three [] =
      (({| m_data := m_data examples.logged_one_after;
           m_queries := m_queries examples.logged_three |}, [1%nat]),
       Raise (invalid_argument "key 3 not found")).
Proof.
  split; [reflexivity|]. split; [reflexivity|].
  split; [vm_compute; reflexivity|]. split; [vm_compute; reflexivity|].
  apply (proj2 (proj2 (final_queries_order_and_abort (two_keys key_int key_string)
           (list nat) examples.logged_one [] examples.log_2 (3, "nonexistent")))
           [(examples.log_3, (1, "key3"))] examples.logged_one_after [1%nat]
           (invalid_argument "key 3 not found") examples.logged_three).
  - reflexivity.
  - reflexivity.
  - vm_compute; reflexivity.
  - vm_compute; reflexivity.
Defined.

End query_map_facts.

(** * Properties of the rules and of the parameters *)

Module input_parameter_facts.
Import MockParameterHandler input_parameter.

Section rules.
Context {T : Type} `{AnyType T} `{Less T}.

Lemma contains_true (input : MockParameterHandler.t) name :
  contains input name = true ↔ is_Some (parameters input !! name).
Proof. unfold contains. apply bool_decide_eq_true. Qed.

Lemma contains_false (input : MockParameterHandler.t) name :
  contains input name = false ↔ parameters input !! name = None.
Proof.
  unfold contains. rewrite bool_decide_eq_false. symmetry. apply eq_None_not_Some.
Qed.

Lemma contains_insert (input : MockParameterHandler.t) name (value : T) :
  contains (insert input name value) name = true.
Proof. apply contains_true. simpl. rewrite lookup_insert_eq. eauto. Qed.

(** A rule writes to the handler at the name of its parameter only. *)
Lemma check_frame name (c : check_base T) (input : MockParameterHandler.t) key :
  key ≠ name →
  parameters (fst (check name c input)) !! key = parameters input !! key.
Proof.
  intros Hne. destruct c as [|low high|value|]; simpl.
  - unfold is_required_check. by destruct (contains input name).
  - unfold check_range_check. destruct (contains input name); [|done].
    destruct (get input name) as [v|e]; [|done].
    by destruct (less v low || less high v).
  - unfold set_default_check. destruct (contains input name); simpl; [done|].
    by rewrite lookup_insert_ne.
  - unfold check_data_type_check. destruct (contains input name); [|done].
    by destruct (get input name).
Qed.

(** The chain stops at the first rule that throws. *)
Lemma check_parameter_abort (p : input_parameter.t T) before c after
    (input input1 input2 : MockParameterHandler.t) e :
  m_checks p = before ++ c :: after →
  for_each (check (name p)) before input = (input1, Normal tt) →
  check (name p) c input1 = (input2, Raise e) →
  check_parameter p input = (input2, Raise e).
Proof.
  intros Hp Hb Hc. unfold check_parameter. rewrite Hp, for_each_app, Hb. simpl.
  unfold mbind, M_bind. by rewrite Hc.
Qed.

End rules.

(** C6. [check_range::check] never changes the handler; it passes when the
    name of the parameter is absent; when the name is present and the typed
    read gives [value], it throws the out-of-range [std::invalid_argument]
    exactly when [value < low] or [value > high], and passes otherwise; so,
    for bounds with [low <= high], a value equal to either bound passes. *)
Theorem check_range_check_spec {T} `{AnyType T} `{Less T}
    (name : string) (low high : T) (input : MockParameterHandler.t) :
  fst (check_range_check name low high input) = input
  ∧ (contains input name = false →
     snd (check_range_check name low high input) = Normal tt)
  ∧ (∀ value, contains input name = true → get input name = Normal value →
     snd (check_range_check name low high input) =
       if less value low || less high value
       then Raise (invalid_argument ("Parameter " +:+ name +:+ " out of range"))
       else Normal tt)
  ∧ (∀ value, contains input name = true → get input name = Normal value →
     less high low = false → value = low ∨ value = high →
     snd (check_range_check name low high input) = Normal tt).
Proof.
  unfold check_range_check. repeat split.
  - destruct (contains input name); [|done].
    destruct (get input name) as [v|e]; [|done].
    by destruct (less v low || less high v).
  - by intros ->.
  - intros value -> ->. by destruct (less value low || less high value).
  - intros value -> -> Hlh [->| ->]; by rewrite ?Hlh, !less_irrefl.
Qed.

Lemma check_range_check_spec_witness :
  (contains MockParameterHandler.create "range_param" = false
   ∧ snd (check_range_check "range_param" 0 100 MockParameterHandler.create) = Normal tt)
  ∧ (contains (insert MockParameterHandler.create "range_param" 150) "range_param" = true
     ∧ get (insert MockParameterHandler.create "range_param" 150) "range_param" = Normal 150
     ∧ snd (check_range_check "range_param" 0 100
              (insert MockParameterHandler.create "range_param" 150))
       = Raise (invalid_argument "Parameter range_param out of range"))
  ∧ (contains (insert MockParameterHandler.create "range_param" 100) "range_param" = true
     ∧ get (insert MockParameterHandler.create "range_param" 100) "range_param" = Normal 100
     ∧ less 100 0 = false
     ∧ snd (check_range_check "range_param" 0 100
              (insert MockParameterHandler.create "range_param" 100))
       = Normal tt).
Proof.
  split; [|split].
  - split; [reflexivity|].
    apply (proj1 (proj2
      (check_range_check_spec "range_param" 0 100 MockParameterHandler.create))).
    reflexivity.
  - split; [reflexivity|]. split; [reflexivity|].
    exact (proj1 (proj2 (proj2
      (check_range_check_spec "range_param" 0 100
         (insert MockParameterHandler.create "range_param" 150)))) 150
      eq_refl eq_refl).
  - split; [reflexivity|]. split; [reflexivity|]. split; [reflexivity|].
    apply (proj2 (proj2 (proj2
      (check_range_check_spec "range_param" 0 100
         (insert MockParameterHandler.create "range_param" 100)))) 100);
      [reflexivity|reflexivity|reflexivity|right; reflexivity].
Defined.

(** C7. [set_default::check] never throws; it inserts the default value under
    the name of the parameter when the name is absent, and leaves the handler
    as it is when the name is present: a value already there is not
    overwritten, and a second application changes nothing. *)
Theorem set_default_check_spec {T} `{AnyType T}
    (name : string) (value : T) (input : MockParameterHandler.t) :
  snd (set_default_check name value input) = Normal tt
  ∧ (contains input name = false →
     fst (set_default_check name value input) = insert input name value)
  ∧ (contains input name = true →
     fst (set_default_check name value input) = input)
  ∧ (∀ user_value : T,
     fst (set_default_check name value (insert input name user_value))
     = insert input name user_value)
  ∧ fst (set_default_check name value (fst (set_default_check name value input)))
    = fst (set_default_check name value input).
Proof.
  unfold set_default_check. repeat split.
  - by destruct (contains input name).
  - by intros ->.
  - by intros ->.
  - intros user_value. by rewrite contains_insert.
  - destruct (contains input name) eqn:Hc; simpl.
    + by rewrite Hc.
    + by rewrite contains_insert.
Qed.

Lemma set_default_check_spec_witness :
  (contains MockParameterHandler.create "default_param" = false
   ∧ fst (set_default_check "default_param" 99 MockParameterHandler.create)
     = insert MockParameterHandler.create "default_param" 99)
  ∧ (contains (insert MockParameterHandler.create "default_param" 42) "default_param" = true
     ∧ fst (set_default_check "default_param" 99
              (insert MockParameterHandler.create "default_param" 42))
       = insert MockParameterHandler.create "default_param" 42).
Proof.
  split.
  - split; [reflexivity|].
    apply (proj1 (proj2
      (set_default_check_spec "default_param" 99 MockParameterHandler.create))).
    reflexivity.
  - split; [reflexivity|].
    apply (proj1 (proj2 (proj2
      (set_default_check_spec "default_param" 99
         (insert MockParameterHandler.create "default_param" 42))))).
    reflexivity.
Defined.

(** C8. The rules of a parameter run in registration order ([add] appends)
    and the first rule that throws ends the chain with its exception: when
    the rules before a rule pass and that rule throws, [check_parameter]
    throws the same exception and the later rules do not run.  With
    [is_required] registered first and the name absent from the handler,
    [check_parameter] throws the missing-parameter [std::invalid_argument]
    and leaves the handler as it was, whatever rules follow; so does the chain
    of [is_required] and then [check_range]. *)
Theorem check_parameter_fail_fast {T} `{AnyType T} `{Less T}
    (p : input_parameter.t T) (input : MockParameterHandler.t) :
  (∀ c, m_checks (add p c) = m_checks p ++ [c])
  ∧ (∀ before c after input1 input2 e,
     m_checks p = before ++ c :: after →
     for_each (check (name p)) before input = (input1, Normal tt) →
     check (name p) c input1 = (input2, Raise e) →
     check_parameter p input = (input2, Raise e))
  ∧ (∀ after,
     m_checks p = is_required :: after →
     contains input (name p) = false →
     check_parameter p input =
       (input, Raise (invalid_argument ("Parameter " +:+ name p +:+ " is missing!"))))
  ∧ (∀ low high,
     contains input (name p) = false →
     check_parameter (add (add (create (name p)) is_required) (check_range low high)) input =
       (input, Raise (invalid_argument ("Parameter " +:+ name p +:+ " is missing!")))).
Proof.
  assert (Hreq : ∀ (p' : input_parameter.t T) after,
            m_checks p' = is_required :: after →
            contains input (name p') = false →
            check_parameter p' input =
              (input, Raise (invalid_argument
                               ("Parameter " +:+ name p' +:+ " is missing!")))).
  { intros p' after Hp Hc.
    apply (check_parameter_abort p' [] is_required after input input); try done.
    simpl. unfold is_required_check. by rewrite Hc. }
  split; [done|]. split; [|split].
  - intros before c after input1 input2 e. apply check_parameter_abort.
  - apply Hreq.
  - intros low high Hc.
    by apply (Hreq (add (add (create (name p)) is_required) (check_range low high))
                [check_range low high]).
Qed.

Lemma check_parameter_fail_fast_witness :
  (contains MockParameterHandler.create "multi_param" = false
   ∧ check_parameter (add (add (create "multi_param") is_required) (check_range 0 100))
       MockParameterHandler.create =
       (MockParameterHandler.create,
        Raise (invalid_argument "Parameter multi_param is missing!")))
  ∧ (m_checks examples.multi_param = is_required :: [check_range 0 100; set_default 50]
     ∧ check_parameter examples.multi_param MockParameterHandler.create =
         (MockParameterHandler.create,
          Raise (invalid_argument "Parameter multi_param is missing!")))
  ∧ (m_checks examples.multi_param = [is_required] ++ check_range 0 100 :: [set_default 50]
     ∧ check_parameter examples.multi_param
         (insert MockParameterHandler.create "multi_param" 150) =
         (insert MockParameterHandler.create "multi_param" 150,
          Raise (invalid_argument "Parameter multi_param out of range"))).
Proof.
  split; [|split].
  - split; [reflexivity|].
    apply (proj2 (proj2 (proj2
      (check_parameter_fail_fast (create (T := Z) "multi_param")
         MockParameterHandler.create))) 0 100).
    reflexivity.
  - split; [reflexivity|].
    apply (proj1 (proj2 (proj2
      (check_parameter_fail_fast examples.multi_param MockParameterHandler.create)))
      [check_range 0 100; set_default 50]); reflexivity.
  - split; [reflexivity|].
    apply (proj1 (proj2
      (check_parameter_fail_fast examples.multi_param
         (insert MockParameterHandler.create "multi_param" 150)))
      [is_required] (check_range 0 100) [set_default 50]
      (insert MockParameterHandler.create "multi_param" 150)); reflexivity.
Defined.

(** C10. Frame property of the rule chain: whatever rules a parameter has and
    whether the chain passes or throws, [check_parameter] leaves every key of
    the handler other than the name of the parameter as it was, present or
    absent and with the same value. *)
Theorem check_parameter_frame {T} `{AnyType T} `{Less T}
    (p : input_parameter.t T) (input : MockParameterHandler.t) (key : string) :
  key ≠ name p →
  parameters (fst (check_parameter p input)) !! key = parameters input !! key.
Proof.
  intros Hne. unfold check_parameter. revert input.
  induction (m_checks p) as [|c cs IH]; intros input; simpl; [done|].
  unfold mbind, M_bind.
  pose proof (check_frame (name p) c input key Hne) as Hc.
  destruct (check (name p) c input) as [input1 [[]|e]]; simpl in *.
  - by rewrite IH.
  - done.
Qed.

Lemma check_parameter_frame_witness :
  "other" ≠ name examples.timeout
  ∧ parameters (fst (check_parameter examples.timeout (insert MockParameterHandler.create "other" 7))) !! "other"
    = parameters (insert MockParameterHandler.create "other" 7) !! "other".
Proof.
  assert (Hne : "other" ≠ name examples.timeout) by discriminate.
  split; [exact Hne|].
  apply (check_parameter_frame examples.timeout (insert MockParameterHandler.create "other" 7) "other" Hne).
Defined.

End input_parameter_facts.

(** * Properties of the controller *)

Module input_parameter_controller_facts.
Import input_parameter_controller.

Lemma move_assign_lookup (this data : t) (key : string) :
  m_data (move_assign this data) !! key =
  match m_data data !! key with
  | Some spec => Some spec
  | None => m_data this !! key
  end.
Proof.
  unfold move_assign. case_bool_decide as Hempty; simpl.
  - rewrite Hempty, lookup_empty. by destruct (m_data data !! key).
  - revert key.
    apply (map_fold_weak_ind
      (λ (r : gmap string input_parameter_base) (m : gmap string input_parameter_base),
         ∀ key, r !! key =
                match m !! key with Some spec => Some spec | None => m_data this !! key end)).
    + intros key. by rewrite lookup_empty.
    + intros i x m r Hi IH key.
      destruct (decide (key = i)) as [->|Hne].
      * by rewrite !lookup_insert_eq.
      * by rewrite !lookup_insert_ne.
Qed.

(** C5. Move assignment of the controller merges or adopts: into a controller
    that is not empty, every key of the source comes with the parameter of the
    source (overwriting the one of the destination if there is one) and every
    other key of the destination keeps its parameter; into an empty
    controller, the map of the source is taken as a whole. *)
Theorem move_assign_merge_or_adopt (this data : t) :
  (m_data this ≠ ∅ →
   ∀ key, m_data (move_assign this data) !! key =
          match m_data data !! key with
          | Some spec => Some spec
          | None => m_data this !! key
          end)
  ∧ (m_data this = ∅ → move_assign this data = data).
Proof.
  split.
  - intros _ key. apply move_assign_lookup.
  - intros Hempty. unfold move_assign. rewrite bool_decide_eq_true_2 by done.
    by destruct data.
Qed.

Lemma move_assign_merge_or_adopt_witness :
  m_data examples.controller_a ≠ ∅
  ∧ m_data (move_assign examples.controller_a examples.controller_b) !! "x"
    = m_data examples.controller_b !! "x"
  ∧ m_data (move_assign examples.controller_a examples.controller_b) !! "y"
    = m_data examples.controller_a !! "y"
  ∧ m_data create = ∅
  ∧ move_assign create examples.controller_b = examples.controller_b.
Proof.
  assert (Hne : m_data examples.controller_a ≠ ∅) by apply insert_non_empty.
  split; [exact Hne|].
  split; [apply (proj1 (move_assign_merge_or_adopt examples.controller_a
                          examples.controller_b) Hne "x")|].
  split; [apply (proj1 (move_assign_merge_or_adopt examples.controller_a
                          examples.controller_b) Hne "y")|].
  split; [reflexivity|].
  apply (proj2 (move_assign_merge_or_adopt create examples.controller_b)).
  reflexivity.
Defined.

End input_parameter_controller_facts.

(** * The tests of the repository, on the model *)

Module repository_tests.
Import query_map examples.

(** [QueryMapTest.SetAndGetValues] *)
Example SetAndGetValues :
  match get2 (fst (set qmap 42 make_any (1, "key1"))) (1, "key1") with
  | Normal r => any_cast (T := Z) (deref r)
  | Raise e => Raise e
  end = Normal 42.
Proof. vm_compute. reflexivity. Qed.

(** [QueryMapTest.KeyNotFound] *)
Example KeyNotFound :
  match get2 qmap (3, "nonexistent") with
  | Normal _ => None
  | Raise e => Some e
  end = Some (invalid_argument "key 3 not found").
Proof. vm_compute. reflexivity. Qed.

(** [QueryMapTest.UpdateValue] *)
Example UpdateValue :
  match get2 (fst (set (fst (set qmap 10 make_any (4, "key4"))) 99 make_any (4, "key4")))
          (4, "key4") with
  | Normal r => any_cast (T := Z) (deref r)
  | Raise e => Raise e
  end = Normal 99.
Proof. vm_compute. reflexivity. Qed.

(** [QueryMapTest.QueryExecution]: the callback reads the value and sets the
    flag it has captured. *)
Example QueryExecution :
  let callback : query_fun_sig bool := λ s,
    match any_cast (T := Z) (fst s) with
    | Normal _ => ((fst s, true), Normal tt)
    | Raise e => (s, Raise e)
    end in
  let q := query (fst (set (create key_int [key_string] bool) 55 make_any (1, "key3")))
             callback (1, "key3") in
  let result := final_queries (a := two_keys key_int key_string) q false in
  snd (fst result) = true ∧ snd result = Normal tt.
Proof. vm_compute. split; reflexivity. Qed.

Import MockParameterHandler input_parameter.

(** [InputParameterTest.TestSetDefaultValue] *)
Example TestSetDefaultValue :
  get (T := Z)
    (fst (check_parameter (add (parameter "default_param") (set_default 99)) handler))
    "default_param" = Normal 99.
Proof. vm_compute. reflexivity. Qed.

(** [InputParameterTest.TestSetDefaultValueNotNeeded] *)
Example TestSetDefaultValueNotNeeded :
  get (T := Z)
    (fst (check_parameter (add (parameter "default_param") (set_default 99))
            (insert handler "default_param" 42)))
    "default_param" = Normal 42.
Proof. vm_compute. reflexivity. Qed.

(** [InputParameterTest.TestInvalidType] *)
Example TestInvalidType :
  snd (check_parameter (add (parameter "param_with_wrong_type") check_data_type)
         (insert handler "param_with_wrong_type" "not_an_int"))
  = Raise bad_any_cast.
Proof. vm_compute. reflexivity. Qed.

(** [InputParameterTest.TestMultipleChecks_Fail] *)
Example TestMultipleChecks_Fail :
  snd (check_parameter examples.multi_param (insert handler "multi_param" 150))
  = Raise (invalid_argument "Parameter multi_param out of range").
Proof. vm_compute. reflexivity. Qed.

(** The scenario of the spec: "timeout" with [check_range(1, 60)] and
    [set_default(30)]; an empty handler is filled with 30, and 120 is out of
    range. *)
Example timeout_scenario :
  get (T := Z) (fst (check_parameter examples.timeout handler)) "timeout" = Normal 30
  ∧ snd (check_parameter examples.timeout
           (insert (fst (check_parameter examples.timeout handler)) "timeout" 120))
    = Raise (invalid_argument "Parameter timeout out of range").
Proof. vm_compute. split; reflexivity. Qed.

End repository_tests.

(** * More on the multi-key store *)

Module query_map_more.
Import query_map query_map_spec.

Lemma spec_get_empty k ks pos (keys : tuple_type k ks) v :
  spec_get k ks pos (map_empty k ks) keys ≠ inr v.
Proof. destruct ks; simpl; by rewrite lookup_empty. Qed.

Lemma spec_get_set_imp_ne {T} k ks pos (m : map_type k ks) (data : T) func
    (keys keys' : tuple_type k ks) v :
  keys' ≠ keys →
  spec_get k ks pos (set_imp k ks m data func keys) keys' = inr v
  ↔ spec_get k ks pos m keys' = inr v.
Proof.
  revert k pos m keys keys'.
  induction ks as [|k' ks IH]; intros k pos m keys keys' Hne; simpl in *.
  - by rewrite lookup_insert_ne.
  - destruct keys as [k1 rest], keys' as [k1' rest']; simpl.
    destruct (decide (k1' = k1)) as [->|Hk].
    + rewrite lookup_insert_eq.
      assert (rest' ≠ rest) as Hrest by congruence.
      rewrite (IH k' (S pos) _ rest rest' Hrest).
      destruct (m !! k1) as [sub|]; simpl; [done|].
      split; [|done]. intros Habs. by destruct (spec_get_empty _ _ _ _ _ Habs).
    + by rewrite lookup_insert_ne.
Qed.

Lemma get_list_value a (m : map_of a) (keys : tuple_of a) v :
  (∃ r, get_list a m keys = Normal r ∧ deref r = v)
  ↔ spec_get (first_key a) (more_keys a) 0 m keys = inr v.
Proof.
  pose proof (query_map_facts.get_list_spec_get a m keys) as Hg.
  destruct (spec_get (first_key a) (more_keys a) 0 m keys) as [[txt pos]|v0].
  - rewrite Hg. split; [intros (r & Hr & _); discriminate|discriminate].
  - destruct Hg as (r & Hr & Hv). rewrite Hr. split.
    + intros (r' & [= <-] & <-). by rewrite Hv.
    + intros [= <-]. eauto.
Qed.

(** Writing through the reference [get] returns is [set_imp] with the same
    keys. *)
Lemma get_list_assign a (m : map_of a) (keys : tuple_of a) r (v : any) :
  get_list a m keys = Normal r →
  assign r v = set_imp (first_key a) (more_keys a) m v (λ x, x) keys.
Proof.
  destruct a as [k|k k']; simpl in *; unfold get_list_first.
  - destruct (m !! keys) as [sub|]; [|done]. by intros [= <-].
  - destruct (m !! keys.1) as [sub|]; [|done]. unfold get_list_impl_last; simpl.
    destruct (sub !! keys.2) as [v0|]; [|done]. by intros [= <-].
Qed.

Lemma get_list_assign_deref a (m : map_of a) (keys : tuple_of a) r :
  get_list a m keys = Normal r → assign r (deref r) = m.
Proof.
  destruct a as [k|k k']; simpl in *; unfold get_list_first.
  - destruct (m !! keys) as [sub|] eqn:Hm; [|done]. intros [= <-]; simpl.
    by apply insert_id.
  - destruct (m !! keys.1) as [sub|] eqn:Hm; [|done]. unfold get_list_impl_last; simpl.
    destruct (sub !! keys.2) as [v0|] eqn:Hs; [|done]. intros [= <-]; simpl.
    rewrite (insert_id sub) by done. by apply insert_id.
Qed.

Lemma for_each_read_only a W (qs : list (query_fun_sig W * tuple_of a))
    (m : map_of a) (w : W) :
  (∀ func keys, (func, keys) ∈ qs → ∀ v w', fst (fst (func (v, w'))) = v) →
  fst (fst (for_each run_query qs (m, w))) = m.
Proof.
  revert w. induction qs as [|[func keys] qs IH]; intros w Hro; simpl; [done|].
  unfold mbind, M_bind, run_query; simpl.
  destruct (get_list a m keys) as [r|e] eqn:Hget; simpl; [|done].
  pose proof (Hro func keys ltac:(left) (deref r) w) as Hv.
  destruct (func (deref r, w)) as [[v' w'] res]; simpl in Hv. subst v'.
  rewrite (get_list_assign_deref a m keys r Hget).
  destruct res as [[]|e]; simpl; [|done].
  apply IH. intros func' keys' Hin. apply (Hro func' keys'). by right.
Qed.

(** X1. [set] writes one leaf: for a key path other than the one set, [get]
    finds after the [set] the value it found before, and finds none where it
    found none. *)
Theorem set_other_path a W T (q : t (first_key a) (more_keys a) W)
    (data : T) (func : T → any) (keys keys' : tuple_of a) (v : any) :
  keys' ≠ keys →
  (∃ r, get (fst (set q data func keys)) keys' = Normal r ∧ deref r = v)
  ↔ (∃ r, get q keys' = Normal r ∧ deref r = v).
Proof.
  intros Hne. unfold get, set; simpl.
  rewrite !get_list_value. by apply spec_get_set_imp_ne.
Qed.

Lemma set_other_path_witness :
  ((1, "1") : tuple_of (two_keys key_int key_string)) ≠ (1, "2")
  ∧ ((∃ r, examples.get2 (fst (set examples.store_1_2 8 make_any (1, "1"))) (1, "2")
           = Normal r ∧ deref r = any_int 7)
     ↔ (∃ r, examples.get2 examples.store_1_2 (1, "2") = Normal r
             ∧ deref r = any_int 7)).
Proof.
  assert (Hne : ((1, "2") : tuple_of (two_keys key_int key_string)) ≠ (1, "1"))
    by discriminate.
  split; [discriminate|].
  apply (set_other_path (two_keys key_int key_string) unit Z examples.store_1_2
           8 make_any (1, "1") (1, "2") (any_int 7) Hne).
Defined.

(** X2. The reference [get] returns designates the slot of the key path:
    assigning the value it holds leaves the map as it is, assigning a value
    [v] gives the map [set] gives for [v], and a later [get] with the same
    keys finds [v]. *)
Theorem get_reference_laws a W (q : t (first_key a) (more_keys a) W)
    (keys : tuple_of a) (r : reference (map_of a) any) :
  get q keys = Normal r →
  assign r (deref r) = m_data q
  ∧ ∀ v : any,
      assign r v = m_data (fst (set q v (λ x, x) keys))
      ∧ ∃ r', get {| m_data := assign r v; m_queries := m_queries q |} keys = Normal r'
              ∧ deref r' = v.
Proof.
  unfold get. intros Hget. split; [by apply (get_list_assign_deref a _ keys)|].
  intros v. rewrite (get_list_assign a _ keys r v Hget). split; [done|].
  apply (query_map_facts.get_set a W any q v (λ x, x) keys).
Qed.

Lemma get_reference_laws_witness :
  ∃ r, examples.get2 examples.store_1_2 (1, "2") = Normal r
       ∧ assign r (deref r) = m_data examples.store_1_2.
Proof.
  destruct (examples.get2 examples.store_1_2 (1, "2")) as [r|e] eqn:Hget.
  - exists r. split; [reflexivity|].
    apply (get_reference_laws (two_keys key_int key_string) unit
             examples.store_1_2 (1, "2") r Hget).
  - vm_compute in Hget. discriminate.
Defined.

(** X3. Which key the exception of [get] names: on a store just created, the
    first key; after a [set] under [(k1, k2)] in a store that had nothing
    under [k1], and for another second key, that second key. *)
Theorem get_error_names_missing_key :
  (∀ k W (key : key_type k),
     get (a := one_key k) (create k [] W) key = Raise (not_found key))
  ∧ (∀ k k' W (keys : key_type k * key_type k'),
     get (a := two_keys k k') (create k [k'] W) keys = Raise (not_found (fst keys)))
  ∧ (∀ k k' W T (q : t k [k'] W) (data : T) (func : T → any) k1 k2 k2',
     k2' ≠ k2 → m_data q !! k1 = None →
     get (a := two_keys k k') (fst (set q data func (k1, k2))) (k1, k2')
     = Raise (not_found k2')).
Proof.
  split; [|split].
  - intros k W key. unfold get; simpl. unfold get_list_first. by rewrite lookup_empty.
  - intros k k' W keys. unfold get; simpl. unfold get_list_first. by rewrite lookup_empty.
  - intros k k' W T q data func k1 k2 k2' Hne Hk1. unfold get, set; simpl.
    unfold get_list_first. rewrite lookup_insert_eq.
    unfold get_list_impl_last; simpl.
    rewrite lookup_insert_ne by done.
    simpl in Hk1. rewrite Hk1. simpl. by rewrite lookup_empty.
Qed.

Lemma get_error_names_missing_key_witness :
  "1" ≠ "2"
  ∧ m_data examples.store_empty !! 1 = None
  ∧ examples.get2 examples.store_1_2 (1, "1") = Raise (invalid_argument "key 1 not found").
Proof.
  assert (Hne : "1" ≠ "2") by discriminate.
  split; [exact Hne|]. split; [reflexivity|].
  apply (proj2 (proj2 get_error_names_missing_key) key_int key_string unit Z
           examples.store_empty 7 make_any 1 "2" "1" Hne).
  reflexivity.
Defined.

(** X4. Queries are run, not removed, and a query that does not assign to
    its value does not change the store: when no registered callback changes
    the value it is given, [final_queries] leaves the store, map and list of
    queries, as it was, whether it passes or throws. *)
Theorem final_queries_read_only a W (q : t (first_key a) (more_keys a) W) (w : W) :
  (∀ func keys, (func, keys) ∈ m_queries q →
     ∀ v w', fst (fst (func (v, w'))) = v) →
  fst (fst (final_queries q w)) = q.
Proof.
  intros Hro. unfold final_queries.
  pose proof (for_each_read_only a W (m_queries q) (m_data q) w Hro) as Hm.
  destruct (for_each run_query (m_queries q) (m_data q, w)) as [[m w'] res].
  simpl in *. subst m. by destruct q.
Qed.

Lemma final_queries_read_only_witness :
  fst (fst (final_queries (a := two_keys key_int key_string)
              more_examples.store_read_only []))
  = more_examples.store_read_only.
Proof.
  apply (final_queries_read_only (two_keys key_int key_string) (list nat)
           more_examples.store_read_only []).
  intros func keys Hin v w'.
  apply list_elem_of_singleton in Hin. injection Hin as -> ->. reflexivity.
Defined.

(** X5. What a callback assigns is stored, also when the callback throws:
    with one query registered whose keys resolve, [final_queries] ends as the
    callback ends, with the state the callback has left, and [get] then finds
    the value the callback has assigned. *)
Theorem final_queries_stores_assignment a W (q : t (first_key a) (more_keys a) W)
    (w : W) (func : query_fun_sig W) (keys : tuple_of a)
    (r : reference (map_of a) any) (v' : any) (w' : W) (res : except unit) :
  m_queries q = [] →
  get q keys = Normal r →
  func (deref r, w) = ((v', w'), res) →
  ∃ q' r', final_queries (query q func keys) w = ((q', w'), res)
           ∧ get q' keys = Normal r' ∧ deref r' = v'.
Proof.
  unfold get. intros Hq Hget Hf.
  unfold final_queries, query; simpl. rewrite Hq; simpl.
  unfold mbind, M_bind, run_query; simpl. rewrite Hget, Hf.
  rewrite (get_list_assign a _ keys r v' Hget).
  destruct (query_map_facts.get_set a W any q v' (λ x, x) keys) as (r' & Hr' & Hv').
  unfold get, set in Hr'; simpl in Hr'.
  destruct res as [[]|e]; simpl; eexists _, r'; (split; [reflexivity|]); simpl; done.
Qed.

Lemma final_queries_stores_assignment_witness :
  ∃ q' r', final_queries (a := two_keys key_int key_string)
             (query more_examples.store_55 examples.log_1 (1, "key3")) []
           = ((q', [1%nat]), Normal tt)
           ∧ examples.get2 q' (1, "key3") = Normal r' ∧ deref r' = any_int 56.
Proof.
  destruct (examples.get2 more_examples.store_55 (1, "key3")) as [r|e] eqn:Hget.
  - apply (final_queries_stores_assignment (two_keys key_int key_string) (list nat)
             more_examples.store_55 [] examples.log_1 (1, "key3") r
             (any_int 56) [1%nat] (Normal tt) eq_refl Hget eq_refl).
  - vm_compute in Hget. discriminate.
Defined.

End query_map_more.

(** * More on the rules and the parameters *)

Module input_parameter_more.
Import MockParameterHandler input_parameter.

Section chain.
Context {T : Type} `{AnyType T} `{Less T}.

Lemma get_insert (input : MockParameterHandler.t) name (value : T) :
  get (insert input name value) name = Normal value.
Proof.
  unfold get, insert; simpl. rewrite lookup_insert_eq.
  unfold any_cast. by rewrite any_cast_make_any.
Qed.

(** What one rule leaves of the handler: the handler itself, or, for
    [set_default] on an absent name, the handler with the default. *)
Lemma check_result name (c : check_base T) (input : MockParameterHandler.t) :
  fst (check name c input) = input
  ∨ contains input name = false
    ∧ ∃ v, c = set_default v ∧ check name c input = (insert input name v, Normal tt).
Proof.
  destruct c as [|low high|value|]; simpl.
  - left. unfold is_required_check. by destruct (contains input name).
  - left. unfold check_range_check. destruct (contains input name); [|done].
    destruct (get input name) as [v|e]; [|done].
    by destruct (less v low || less high v).
  - unfold set_default_check. destruct (contains input name); simpl; [by left|].
    right. eauto.
  - left. unfold check_data_type_check. destruct (contains input name); [|done].
    by destruct (get input name).
Qed.

Lemma check_present name (c : check_base T) (input : MockParameterHandler.t) :
  contains input name = true → fst (check name c input) = input.
Proof.
  intros Hc. destruct (check_result name c input) as [Hin|[Habs _]]; [done|congruence].
Qed.

Lemma chain_present name (cs : list (check_base T)) (input : MockParameterHandler.t) :
  contains input name = true → fst (for_each (check name) cs input) = input.
Proof.
  intros Hc. induction cs as [|c cs IH]; simpl; [done|].
  unfold mbind, M_bind. pose proof (check_present name c input Hc) as Hp.
  destruct (check name c input) as [input1 [[]|e]]; simpl in *; by subst.
Qed.

Lemma chain_result name (cs : list (check_base T)) (input : MockParameterHandler.t) :
  fst (for_each (check name) cs input) = input
  ∨ ∃ v, set_default v ∈ cs
         ∧ fst (for_each (check name) cs input) = insert input name v.
Proof.
  revert input. induction cs as [|c cs IH]; intros input; simpl; [by left|].
  unfold mbind, M_bind.
  destruct (check_result name c input) as [Hin|(Habs & v & -> & Hv)].
  - destruct (check name c input) as [input1 [[]|e]]; simpl in *; subst; [|by left].
    destruct (IH input) as [Hi|(v & Hv & Hi)]; [by left|].
    right. exists v. split; [by right|done].
  - rewrite Hv. right. exists v. split; [by left|].
    apply chain_present, input_parameter_facts.contains_true. simpl. rewrite lookup_insert_eq. eauto.
Qed.

Lemma chain_present_pass name (cs : list (check_base T))
    (input : MockParameterHandler.t) (c : check_base T) :
  contains input name = true →
  snd (for_each (check name) cs input) = Normal tt →
  c ∈ cs → snd (check name c input) = Normal tt.
Proof.
  intros Hc. induction cs as [|c0 cs IH]; simpl; [by intros _ ?%elem_of_nil|].
  unfold mbind, M_bind. pose proof (check_present name c0 input Hc) as Hp.
  destruct (check name c0 input) as [input1 [[]|e]] eqn:Hc0; simpl in *; [|done].
  subst input1. intros Hrest [->|Hin]%elem_of_cons; [by rewrite Hc0|by apply IH].
Qed.

Lemma chain_contains name (cs : list (check_base T))
    (input : MockParameterHandler.t) key :
  contains input key = true →
  contains (fst (for_each (check name) cs input)) key = true.
Proof.
  intros Hc. destruct (chain_result name cs input) as [->|(v & _ & ->)]; [done|].
  apply input_parameter_facts.contains_true in Hc. apply input_parameter_facts.contains_true. simpl.
  destruct (decide (key = name)) as [->|Hne].
  - rewrite lookup_insert_eq. eauto.
  - by rewrite lookup_insert_ne.
Qed.

End chain.

(** X6. A chain writes to the handler at most once, and only a default: the
    handler [check_parameter] leaves is the one it was given, or that one
    with the value of a [set_default] of the chain inserted under the name
    of the parameter; it is the one it was given when the name is present,
    and when the chain has no [set_default]. *)
Theorem check_parameter_writes_default_only {T} `{AnyType T} `{Less T}
    (p : input_parameter.t T) (input : MockParameterHandler.t) :
  (contains input (name p) = true → fst (check_parameter p input) = input)
  ∧ ((∀ v, set_default v ∉ m_checks p) → fst (check_parameter p input) = input)
  ∧ (fst (check_parameter p input) = input
     ∨ ∃ v, set_default v ∈ m_checks p
            ∧ fst (check_parameter p input) = insert input (name p) v).
Proof.
  unfold check_parameter. split; [apply chain_present|]. split.
  - intros Hno. destruct (chain_result (name p) (m_checks p) input)
      as [Hi|(v & Hv & _)]; [done|]. by destruct (Hno v).
  - apply chain_result.
Qed.

Lemma check_parameter_writes_default_only_witness :
  contains (insert MockParameterHandler.create "timeout" 120) (name examples.timeout) = true
  ∧ fst (check_parameter examples.timeout (insert MockParameterHandler.create "timeout" 120))
    = insert MockParameterHandler.create "timeout" 120.
Proof.
  split; [reflexivity|].
  apply (proj1 (check_parameter_writes_default_only examples.timeout
                  (insert MockParameterHandler.create "timeout" 120))).
  reflexivity.
Defined.

(** X7. A check that passes vouches for the ranges of a value the user has
    supplied: when the name is present with a value [v] of the type of the
    parameter and [check_parameter] passes, [v] is within the bounds of every
    [check_range] of the chain. *)
Theorem check_parameter_range_postcondition {T} `{AnyType T} `{Less T}
    (p : input_parameter.t T) (input : MockParameterHandler.t) (low high v : T) :
  snd (check_parameter p input) = Normal tt →
  check_range low high ∈ m_checks p →
  contains input (name p) = true →
  get input (name p) = Normal v →
  less v low = false ∧ less high v = false.
Proof.
  unfold check_parameter. intros Hpass Hin Hc Hget.
  pose proof (chain_present_pass (name p) (m_checks p) input _ Hc Hpass Hin) as Hr.
  simpl in Hr. unfold check_range_check in Hr. rewrite Hc, Hget in Hr.
  destruct (less v low); destruct (less high v); simpl in Hr; done.
Qed.

Lemma check_parameter_range_postcondition_witness :
  snd (check_parameter examples.timeout (insert MockParameterHandler.create "timeout" 60))
    = Normal tt
  ∧ less 60 1 = false ∧ less 60 60 = false.
Proof.
  split; [reflexivity|].
  apply (check_parameter_range_postcondition examples.timeout
           (insert MockParameterHandler.create "timeout" 60) 1 60 60).
  - reflexivity.
  - left.
  - reflexivity.
  - reflexivity.
Defined.

(** X8. A check that passes vouches for the type of a value the user has
    supplied: when the name is present, the chain has a [check_data_type] and
    [check_parameter] passes, the typed read of the name returns a value. *)
Theorem check_parameter_type_postcondition {T} `{AnyType T} `{Less T}
    (p : input_parameter.t T) (input : MockParameterHandler.t) :
  snd (check_parameter p input) = Normal tt →
  check_data_type ∈ m_checks p →
  contains input (name p) = true →
  ∃ v : T, get input (name p) = Normal v.
Proof.
  unfold check_parameter. intros Hpass Hin Hc.
  pose proof (chain_present_pass (name p) (m_checks p) input _ Hc Hpass Hin) as Hr.
  simpl in Hr. unfold check_data_type_check in Hr. rewrite Hc in Hr.
  destruct (get input (name p)) as [v|e]; [eauto|done].
Qed.

Lemma check_parameter_type_postcondition_witness :
  ∃ v : Z, get (insert MockParameterHandler.create "typed" 5) "typed" = Normal v.
Proof.
  apply (check_parameter_type_postcondition
           (add (create (T := Z) "typed") check_data_type)
           (insert MockParameterHandler.create "typed" 5)).
  - reflexivity.
  - left.
  - reflexivity.
Defined.

(** X9. A check that passes with [is_required] in the chain leaves the name
    present in the handler (it was there, or a [set_default] registered
    before [is_required] has put it there). *)
Theorem check_parameter_required_postcondition {T} `{AnyType T} `{Less T}
    (p : input_parameter.t T) (input : MockParameterHandler.t) :
  snd (check_parameter p input) = Normal tt →
  is_required ∈ m_checks p →
  contains (fst (check_parameter p input)) (name p) = true.
Proof.
  unfold check_parameter. revert input.
  induction (m_checks p) as [|c cs IH]; intros input; simpl;
    [by intros _ ?%elem_of_nil|].
  unfold mbind, M_bind.
  destruct (check (name p) c input) as [input1 [[]|e]] eqn:Hc; simpl; [|done].
  intros Hpass [<-|Hin]%elem_of_cons; [|by apply IH].
  simpl in Hc. unfold is_required_check in Hc.
  destruct (contains input (name p)) eqn:Hcont; simpl in Hc; [|done].
  injection Hc as <-. by apply chain_contains.
Qed.

Lemma check_parameter_required_postcondition_witness :
  contains (fst (check_parameter
                   (add (add (create (T := Z) "n") (set_default 3)) is_required)
                   MockParameterHandler.create)) "n" = true.
Proof.
  apply (check_parameter_required_postcondition
           (add (add (create (T := Z) "n") (set_default 3)) is_required)
           MockParameterHandler.create).
  - reflexivity.
  - right. left.
Defined.

(** X10. The order of the rules matters and a passing check need not pass
    again: with [check_range] registered before a [set_default] whose value
    is out of the range, and the name absent, [check_parameter] passes and
    stores the default, and a second [check_parameter] on the handler it has
    left throws the out-of-range exception. *)
Theorem check_parameter_not_idempotent {T} `{AnyType T} `{Less T}
    (p : input_parameter.t T) (input : MockParameterHandler.t) (low high v : T) :
  m_checks p = [check_range low high; set_default v] →
  contains input (name p) = false →
  less v low || less high v = true →
  check_parameter p input = (insert input (name p) v, Normal tt)
  ∧ check_parameter p (insert input (name p) v) =
      (insert input (name p) v,
       Raise (invalid_argument ("Parameter " +:+ name p +:+ " out of range"))).
Proof.
  intros Hp Hc Hout. unfold check_parameter. rewrite Hp; simpl.
  unfold mbind, M_bind, check_range_check, set_default_check.
  rewrite Hc; simpl.
  rewrite input_parameter_facts.contains_insert, get_insert, Hout.
  rewrite Hc. done.
Qed.

Lemma check_parameter_not_idempotent_witness :
  contains MockParameterHandler.create "timeout" = false
  ∧ less 100 1 || less 60 100 = true
  ∧ check_parameter (add (add (create "timeout") (check_range 1 60)) (set_default 100))
      (insert MockParameterHandler.create "timeout" 100) =
      (insert MockParameterHandler.create "timeout" 100,
       Raise (invalid_argument "Parameter timeout out of range")).
Proof.
  split; [reflexivity|]. split; [reflexivity|].
  assert (Hout : less 100 1 || less 60 100 = true) by reflexivity.
  apply (proj2 (check_parameter_not_idempotent
                  (add (add (create "timeout") (check_range 1 60)) (set_default 100))
                  MockParameterHandler.create 1 60 100 eq_refl eq_refl Hout)).
Defined.

(** X11. The handler of the tests: a value inserted is read back with its
    type and is reported present, the other names are as they were, a read
    of the value as another type throws [std::bad_any_cast], and a read of an
    absent name throws the [std::out_of_range] of [unordered_map::at]. *)
Theorem MockParameterHandler_insert_get {T} `{AnyType T}
    (h : MockParameterHandler.t) (name : string) (value : T) :
  get (insert h name value) name = Normal value
  ∧ contains (insert h name value) name = true
  ∧ (∀ key, key ≠ name →
       parameters (insert h name value) !! key = parameters h !! key)
  ∧ (∀ s : string, get (T := Z) (insert h name s) name = Raise bad_any_cast)
  ∧ (contains h name = false → get (T := T) h name = Raise out_of_range).
Proof.
  split; [apply get_insert|]. split; [apply input_parameter_facts.contains_insert|].
  split; [|split].
  - intros key Hne. simpl. by rewrite lookup_insert_ne.
  - intros s. unfold get, insert; simpl. by rewrite lookup_insert_eq.
  - intros Hc%input_parameter_facts.contains_false. unfold get. by rewrite Hc.
Qed.

Lemma MockParameterHandler_insert_get_witness :
  "b" ≠ "a"
  ∧ parameters (insert MockParameterHandler.create "a" 1) !! "b"
    = parameters MockParameterHandler.create !! "b"
  ∧ contains MockParameterHandler.create "a" = false
  ∧ get (T := Z) MockParameterHandler.create "a" = Raise out_of_range.
Proof.
  assert (Hne : "b" ≠ "a") by discriminate.
  split; [exact Hne|]. split.
  - apply (proj1 (proj2 (proj2
      (MockParameterHandler_insert_get MockParameterHandler.create "a" 1))) "b" Hne).
  - split; [reflexivity|].
    apply (proj2 (proj2 (proj2 (proj2
      (MockParameterHandler_insert_get (T := Z) MockParameterHandler.create "a" 0))))).
    reflexivity.
Defined.

End input_parameter_more.

(** * More on the controller *)

Module input_parameter_controller_more.
Import MockParameterHandler input_parameter_controller.





Section order.
Variable entries : list (string * input_parameter_base).
Hypothesis entries_names : Forall (λ e, name_of e.2 = e.1) entries.



End order.




Lemma names_ok_create : names_ok create.
Proof. apply map_Forall_empty. Qed.

Lemma names_ok_assign {T} `{AnyType T} `{Less T} (c : t) (name : string)
    (para : input_parameter.t T) :
  names_ok c → input_parameter.name para = name →
  names_ok (assign (snd (insert (T := T) c name)) para).
Proof. intros Hok Hname. by apply map_Forall_insert_2. Qed.

Lemma names_ok_insert {T} `{AnyType T} `{Less T} (c : t) (name : string) :
  names_ok c → names_ok (fst (insert (T := T) c name)).
Proof. intros Hok. by apply map_Forall_insert_2. Qed.

Lemma names_ok_move_assign (this data : t) :
  names_ok this → names_ok data → names_ok (move_assign this data).
Proof.
  intros Ht Hd key spec.
  rewrite input_parameter_controller_facts.move_assign_lookup.
  destruct (m_data data !! key) as [spec'|] eqn:Hk.
  - intros [= <-]. by apply Hd in Hk.
  - apply Ht.
Qed.

(** X12. Every parameter of a controller is stored under its own name: this
    holds of a new controller and is kept by [insert], by [add] through the
    reference [insert] returns, by move assignment and by move
    construction. *)
Theorem names_ok_invariant :
  names_ok create
  ∧ (∀ T (HA : AnyType T) (HL : Less T) c name,
       names_ok c → names_ok (fst (insert (T := T) c name)))
  ∧ (∀ T (HA : AnyType T) (HL : Less T) c name rule,
       names_ok c →
       names_ok (assign (snd (insert (T := T) c name))
                   (input_parameter.add (deref (snd (insert (T := T) c name))) rule)))
  ∧ (∀ this data, names_ok this → names_ok data → names_ok (move_assign this data))
  ∧ (∀ data, names_ok data → names_ok (move_construct data)).
Proof.
  split; [apply names_ok_create|]. split; [intros; by apply names_ok_insert|].
  split; [intros; by apply names_ok_assign|].
  split; [apply names_ok_move_assign|]. by intros [m].
Qed.

Lemma names_ok_invariant_witness :
  names_ok examples.controller_a
  ∧ names_ok examples.controller_b
  ∧ names_ok (move_assign examples.controller_a examples.controller_b)
  ∧ names_ok (move_construct examples.controller_a).
Proof.
  destruct names_ok_invariant as (H0 & Hins & Hadd & Hmove & Hcons).
  assert (Ha : names_ok examples.controller_a).
  { apply (Hins Z _ _ _ "y"). apply (Hins Z _ _ _ "x"). exact H0. }
  assert (Hb : names_ok examples.controller_b).
  { apply (Hadd Z _ _ create "x" input_parameter.is_required). exact H0. }
  split; [exact Ha|]. split; [exact Hb|]. split.
  - apply (Hmove _ _ Ha Hb).
  - apply (Hcons _ Ha).
Defined.

(** X13. Move assignment is the union of the two maps with the source taking
    precedence, so no parameter is dropped, and merging [b] and then [c] into
    [a] gives what merging [c] into [b] and the result into [a] gives. *)
Theorem move_assign_union (a b c : t) :
  m_data (move_assign a b) = m_data b ∪ m_data a
  ∧ dom (m_data (move_assign a b)) = dom (m_data a) ∪ dom (m_data b)
  ∧ m_data (move_assign (move_assign a b) c) = m_data (move_assign a (move_assign b c)).
Proof.
  assert (Hu : ∀ x y : t, m_data (move_assign x y) = m_data y ∪ m_data x).
  { intros x y. apply map_eq. intros key.
    rewrite input_parameter_controller_facts.move_assign_lookup, lookup_union.
    destruct (m_data y !! key), (m_data x !! key); done. }
  split; [apply Hu|]. split.
  - rewrite Hu, dom_union_L. apply (comm_L (∪)).
  - rewrite !Hu. apply (assoc_L (∪)).
Qed.







End input_parameter_controller_more.

(** * parameter_handler *)

Module parameter_handler_facts.
Import parameter_handler.

(** X17. A value inserted in the handler is read back: [get<T>] returns it,
    [data] returns it boxed, [contains] reports the name, the reference
    [insert] returns holds it; a second [insert] under the name replaces the
    first; the other names are untouched. *)
Theorem insert_get {T} `{AnyType T} (h : t) (name : string) (value value' : T) :
  get (fst (insert h name value)) name = Normal value
  ∧ data (fst (insert h name value)) name = Normal (make_any value)
  ∧ contains (fst (insert h name value)) name = true
  ∧ deref (snd (insert h name value)) = value
  ∧ fst (insert (fst (insert h name value)) name value') = fst (insert h name value')
  ∧ (∀ key, key ≠ name →
       data (fst (insert h name value)) key = data h key
       ∧ contains (fst (insert h name value)) key = contains h key).
Proof.
  unfold get, data, contains, insert; simpl. rewrite !lookup_insert_eq.
  split; [unfold any_cast; by rewrite any_cast_make_any|].
  split; [done|]. split; [apply bool_decide_eq_true; eauto|]. split; [done|].
  split; [by rewrite insert_insert_eq|].
  intros key Hne. by rewrite !lookup_insert_ne.
Qed.

Lemma insert_get_witness :
  "b" ≠ "a"
  ∧ data (fst (insert (fst (insert create "b" 2)) "a" 1)) "b"
    = data (fst (insert create "b" 2)) "b".
Proof.
  assert (Hne : "b" ≠ "a") by discriminate.
  split; [exact Hne|].
  apply (proj2 (proj2 (proj2 (proj2 (proj2
    (insert_get (fst (insert create "b" 2)) "a" 1 1))))) "b" Hne).
Defined.

(** X18. Reads that fail: [get<T>] and [data] of a name the handler does not
    contain throw [std::invalid_argument] with the message
    "Key <name> not found"; after [clear] this is so for every name; and
    [get<int>] of a name that holds a string throws [std::bad_any_cast]. *)
Theorem get_failures {T} `{AnyType T} (h : t) (name : string) :
  (contains h name = false →
     get (T := T) h name = Raise (invalid_argument ("Key " +:+ name +:+ " not found"))
     ∧ data h name = Raise (invalid_argument ("Key " +:+ name +:+ " not found")))
  ∧ contains (clear h) name = false
  ∧ get (T := T) (clear h) name
    = Raise (invalid_argument ("Key " +:+ name +:+ " not found"))
  ∧ data (clear h) name = Raise (invalid_argument ("Key " +:+ name +:+ " not found"))
  ∧ (∀ s : string, get (T := Z) (fst (insert h name s)) name = Raise bad_any_cast).
Proof.
  split; [|split; [|split; [|split]]].
  - intros Hc. unfold contains in Hc. apply bool_decide_eq_false in Hc.
    apply eq_None_not_Some in Hc. unfold get, data. by rewrite Hc.
  - unfold contains, clear; simpl. apply bool_decide_eq_false.
    rewrite lookup_empty. by intros [? ?].
  - unfold get, clear; simpl. by rewrite lookup_empty.
  - unfold data, clear; simpl. by rewrite lookup_empty.
  - intros s. unfold get, insert; simpl. by rewrite lookup_insert_eq.
Qed.

Lemma get_failures_witness :
  contains create "non_existent_key" = false
  ∧ get (T := Z) create "non_existent_key"
    = Raise (invalid_argument "Key non_existent_key not found").
Proof.
  split; [reflexivity|].
  apply (proj1 (proj1 (get_failures (T := Z) create "non_existent_key") eq_refl)).
Defined.

End parameter_handler_facts.

(** * static_indexing *)

Module static_indexing_facts.
Import static_indexing.

Lemma register_spec (n : nat) (s : static_indexing_inc) :
  0 ≤ m_id s < type_id_modulus →
  0 ≤ m_max_id s < type_id_modulus →
  snd (register n s)
  = (λ k : nat, (m_id s + Z.of_nat k) mod type_id_modulus) <$> seq 0 n
  ∧ m_id (fst (register n s)) = (m_id s + Z.of_nat n) mod type_id_modulus
  ∧ m_max_id (fst (register n s)) = (m_max_id s + Z.of_nat n) mod type_id_modulus.
Proof.
  unfold type_id_modulus. revert s. induction n as [|n IH]; intros s Hs Hm.
  - simpl. rewrite !Z.add_0_r, !Z.mod_small by done. done.
  - simpl. unfold type_id_modulus.
    specialize (IH {| m_id := (m_id s + 1) mod 2 ^ 32;
                      m_max_id := (m_max_id s + 1) mod 2 ^ 32 |}).
    destruct (register n _) as [s2 ids]. simpl in *.
    destruct IH as (Hids & Hid & Hmax); [by apply Z.mod_pos_bound..|].
    split; [|split].
    + rewrite Hids. f_equal; [rewrite Z.add_0_r, Z.mod_small; done|].
      rewrite <- fmap_S_seq, <- list_fmap_compose. apply list_fmap_ext.
      intros i k _. simpl. rewrite Zplus_mod_idemp_l. f_equal. lia.
    + rewrite Hid, Zplus_mod_idemp_l. f_equal. lia.
    + rewrite Hmax, Zplus_mod_idemp_l. f_equal. lia.
Qed.

(** X19. Identifiers are handed out in sequence: from the zero-initialised
    counters, the initialisers of [n] types get the identifiers 0, 1, ...,
    [n] - 1 modulo 2^32 in this order, the two counters stay equal, and the
    identifiers are pairwise distinct as long as there are at most 2^32 of
    them. *)
Theorem register_initial (n : nat) :
  snd (register n initial) = (λ k : nat, Z.of_nat k mod 2 ^ 32) <$> seq 0 n
  ∧ m_id (fst (register n initial)) = m_max_id (fst (register n initial))
  ∧ ((Z.of_nat n ≤ 2 ^ 32)%Z → NoDup (snd (register n initial))).
Proof.
  destruct (register_spec n initial) as (Hids & Hid & Hmax);
    [unfold type_id_modulus; simpl; lia..|].
  unfold type_id_modulus in *. simpl in *.
  split; [done|]. split; [congruence|].
  intros Hn. rewrite Hids. apply NoDup_fmap_2_strong; [|apply NoDup_seq].
  intros i j Hi%elem_of_seq Hj%elem_of_seq Heq.
  rewrite !Z.mod_small in Heq by lia. lia.
Qed.

Lemma register_initial_witness :
  (Z.of_nat 3 ≤ 2 ^ 32)%Z ∧ NoDup (snd (register 3 initial)).
Proof.
  assert (Hn : (Z.of_nat 3 ≤ 2 ^ 32)%Z) by (vm_compute; discriminate).
  split; [exact Hn|].
  apply (proj2 (proj2 (register_initial 3)) Hn).
Defined.

(** X20. [getID] returns the current identifier and advances both counters
    by one, wrapping from 2^32 - 1 to 0: the counters stay within the range
    of [unsigned int], and after 2^32 - 1 the identifier 0 is handed out
    again. *)
Theorem getID_wraps (s : static_indexing_inc) :
  0 ≤ m_id s < 2 ^ 32 →
  snd (getID s) = m_id s
  ∧ 0 ≤ m_id (fst (getID s)) < 2 ^ 32
  ∧ (m_id s < 2 ^ 32 - 1 → m_id (fst (getID s)) = m_id s + 1)
  ∧ (m_id s = 2 ^ 32 - 1 → snd (getID (fst (getID s))) = 0).
Proof.
  intros Hs. unfold getID, type_id_modulus; simpl.
  split; [done|]. split; [by apply Z.mod_pos_bound|]. split.
  - intros Hlt. apply Z.mod_small. lia.
  - intros ->. reflexivity.
Qed.

Lemma getID_wraps_witness :
  0 ≤ m_id {| m_id := 2 ^ 32 - 1; m_max_id := 2 ^ 32 - 1 |} < 2 ^ 32
  ∧ snd (getID (fst (getID {| m_id := 2 ^ 32 - 1; m_max_id := 2 ^ 32 - 1 |}))) = 0.
Proof.
  assert (Hs : 0 ≤ m_id {| m_id := 2 ^ 32 - 1; m_max_id := 2 ^ 32 - 1 |} < 2 ^ 32)
    by (simpl; lia).
  split; [exact Hs|].
  apply (proj2 (proj2 (proj2 (getID_wraps _ Hs)))). reflexivity.
Defined.

End static_indexing_facts.

(** * input_parser *)

Module input_parser_facts.
Import input_parser.

Lemma remove_character_filter (input : string) (key : Ascii.ascii) :
  list_ascii_of_string (remove_character input key)
  = filter (λ c, c ≠ key) (list_ascii_of_string input).
Proof.
  induction input as [|c rest IH]; simpl; [done|].
  destruct (decide (c = key)) as [->|Hne].
  - rewrite filter_cons_False by (intros ?; done). exact IH.
  - rewrite filter_cons_True by done. simpl. by rewrite IH.
Qed.

Lemma remove_character_absent (input : string) (key : Ascii.ascii) :
  key ∉ list_ascii_of_string input → remove_character input key = input.
Proof.
  induction input as [|c rest IH]; simpl; [done|].
  intros [Hne Hrest]%not_elem_of_cons.
  destruct (decide (c = key)) as [->|_]; [done|]. by rewrite IH.
Qed.

Lemma remove_character_clean (input : string) (key : Ascii.ascii) :
  key ∉ list_ascii_of_string (remove_character input key).
Proof.
  rewrite remove_character_filter. intros [Hne _]%list_elem_of_filter. by apply Hne.
Qed.

(** [find("-")] is 0 exactly on the strings that begin with a dash. *)
Lemma nonzero_find_dash (s : string) :
  nonzero (find s "-") = false ↔ ∃ rest, s = String dash rest.
Proof.
  destruct s as [|c rest]; simpl.
  - split; [done|]. by intros [? ?].
  - unfold find. cbn -[Ascii.ascii_dec]. destruct (Ascii.ascii_dec _ c) as [<-|Hne].
    + assert (String.prefix "" rest = true) as -> by by destruct rest.
      simpl. split; [eauto|done].
    + split.
      * by destruct (String.index 0 "-" rest) as [[|?]|].
      * intros [rest' [= -> _]]. by destruct Hne.
Qed.

Lemma parse_ind (P : list string → Prop) :
  P [] →
  (∀ arg, P [arg]) →
  (∀ arg next rest, P rest → P (next :: rest) → P (arg :: next :: rest)) →
  ∀ args, P args.
Proof.
  intros Hnil Hone Hstep args.
  enough (P args ∧ ∀ arg, P (arg :: args)) by tauto.
  induction args as [|next rest [IH1 IH2]]; [by split|].
  split; [apply IH2|]. intros arg. by apply Hstep.
Qed.

Lemma parse_entry_ok (args : list string) (m : gmap string string) :
  map_Forall entry_ok m → map_Forall entry_ok (parse args m).
Proof.
  revert m. induction args as [|arg|arg next rest IH1 IH2] using parse_ind;
    intros m Hm.
  - done.
  - simpl. apply map_Forall_insert_2; [|done].
    split; [apply remove_character_clean|done].
  - change (parse (arg :: next :: rest) m) with
      (if nonzero (find next "-")
       then parse rest (<[remove_character arg dash := next]> m)
       else parse (next :: rest) (<[remove_character arg dash := ""]> m)).
    destruct (nonzero (find next "-")) eqn:Hnext.
    + apply IH1. apply map_Forall_insert_2; [|done].
      split; [apply remove_character_clean|done].
    + apply IH2. apply map_Forall_insert_2; [|done].
      split; [apply remove_character_clean|done].
Qed.

Lemma parse_pairs (pairs : list (string * string)) (m : gmap string string) :
  Forall (λ p, nonzero (find p.2 "-") = true) pairs →
  parse (flat_map (λ p, [p.1; p.2]) pairs) m
  = foldl (λ m p, <[remove_character p.1 dash := p.2]> m) m pairs.
Proof.
  revert m. induction pairs as [|[flag v] pairs IH]; intros m Hwf; [done|].
  apply Forall_cons in Hwf as [Hv Hwf]. simpl in Hv.
  change (parse (flat_map (λ p, [p.1; p.2]) ((flag, v) :: pairs)) m) with
    (if nonzero (find v "-")
     then parse (flat_map (λ p, [p.1; p.2]) pairs) (<[remove_character flag dash := v]> m)
     else parse (v :: flat_map (λ p, [p.1; p.2]) pairs)
            (<[remove_character flag dash := ""]> m)).
  rewrite Hv. by apply IH.
Qed.

Lemma parse_switches (args : list string) (m : gmap string string) :
  Forall (λ arg, ∃ rest, arg = String dash rest) args →
  parse args m = foldl (λ m arg, <[remove_character arg dash := ""]> m) m args.
Proof.
  revert m. induction args as [|arg rest IH]; intros m Hd; [done|].
  apply Forall_cons in Hd as [_ Hd].
  destruct rest as [|next rest'].
  - done.
  - change (parse (arg :: next :: rest') m) with
      (if nonzero (find next "-")
       then parse rest' (<[remove_character arg dash := next]> m)
       else parse (next :: rest') (<[remove_character arg dash := ""]> m)).
    pose proof (Forall_inv Hd) as Hnext. apply nonzero_find_dash in Hnext.
    rewrite Hnext. by apply IH.
Qed.

Lemma lookup_foldl_switches (args : list string) (m : gmap string string) key :
  foldl (λ m arg, <[remove_character arg dash := ""]> m) m args !! key
  = if decide (key ∈ (λ arg, remove_character arg dash) <$> args)
    then Some "" else m !! key.
Proof.
  revert m. induction args as [|arg rest IH]; intros m.
  - simpl. destruct (decide (key ∈ [])) as [Hin|_]; [by apply elem_of_nil in Hin|done].
  - rewrite fmap_cons. simpl foldl. rewrite IH.
    destruct (decide (key ∈ (λ arg, remove_character arg dash) <$> rest)) as [Hin|Hnot];
      destruct (decide (key ∈ remove_character arg dash ::
                              ((λ arg, remove_character arg dash) <$> rest)))
        as [Hin'|Hnot']; try done.
    + destruct Hnot'. by right.
    + apply elem_of_cons in Hin' as [->|?]; [|done]. by rewrite lookup_insert_eq.
    + apply not_elem_of_cons in Hnot' as [Hne _]. by rewrite lookup_insert_ne.
Qed.

(** X21. [remove_character] takes out every [key] and nothing else: the
    characters left are those of the input other than [key], in their order;
    [key] does not occur in the result; an input without [key] is returned as
    it is; a second removal changes nothing; and the removal distributes over
    concatenation. *)
Theorem remove_character_spec (input input' : string) (key : Ascii.ascii) :
  list_ascii_of_string (remove_character input key)
  = filter (λ c, c ≠ key) (list_ascii_of_string input)
  ∧ (key ∉ list_ascii_of_string (remove_character input key))
  ∧ (key ∉ list_ascii_of_string input → remove_character input key = input)
  ∧ remove_character (remove_character input key) key = remove_character input key
  ∧ remove_character (input +:+ input') key
    = remove_character input key +:+ remove_character input' key.
Proof.
  split; [apply remove_character_filter|]. split; [apply remove_character_clean|].
  split; [apply remove_character_absent|]. split.
  - apply remove_character_absent, remove_character_clean.
  - induction input as [|c rest IH]; simpl; [done|].
    destruct (decide (c = key)); simpl; by rewrite IH.
Qed.

Lemma remove_character_spec_witness :
  (dash ∉ list_ascii_of_string "verbose")
  ∧ remove_character "verbose" dash = "verbose".
Proof.
  assert (Hno : dash ∉ list_ascii_of_string "verbose").
  { intros Hin. vm_compute in Hin. repeat (apply elem_of_cons in Hin as [Hin|Hin];
      [discriminate|]). by apply elem_of_nil in Hin. }
  split; [exact Hno|].
  apply (proj1 (proj2 (proj2 (remove_character_spec "verbose" "" dash))) Hno).
Defined.

(** X22. What the parser stores: whatever the command line, a key of the
    parser has no dash in it, and a value of the parser does not begin with a
    dash. *)
Theorem parser_entries (argv : list string) (key v : string) :
  value (create argv) key = inr v →
  (dash ∉ list_ascii_of_string key) ∧ ∀ rest, v ≠ String dash rest.
Proof.
  unfold value, create; simpl.
  destruct (parse (tail argv) ∅ !! key) as [v0|] eqn:Hk; [|done].
  intros [= ->].
  pose proof (parse_entry_ok (tail argv) ∅ (map_Forall_empty _) key v Hk) as [Hkey Hv].
  split; [done|]. intros rest ->.
  assert (nonzero (find (String dash rest) "-") = false) as Hf
    by (apply nonzero_find_dash; eauto).
  congruence.
Qed.

Lemma parser_entries_witness :
  value (create more_examples.command_line) "input" = inr "mesh.txt"
  ∧ (dash ∉ list_ascii_of_string "input") ∧ ∀ rest, "mesh.txt" ≠ String dash rest.
Proof.
  split; [reflexivity|].
  apply (parser_entries more_examples.command_line "input" "mesh.txt").
  reflexivity.
Defined.

(** X23. A command line of flags each followed by a value that does not
    begin with a dash is stored pair by pair, from left to right, each flag
    without its dashes; a flag given twice keeps its last value. *)
Theorem parser_pairs (prog : string) (pairs : list (string * string))
    (flag v : string) :
  Forall (λ p, nonzero (find p.2 "-") = true) pairs →
  nonzero (find v "-") = true →
  m_arguments (create (prog :: flat_map (λ p, [p.1; p.2]) pairs))
  = foldl (λ m p, <[remove_character p.1 dash := p.2]> m) ∅ pairs
  ∧ value (create (prog :: flat_map (λ p, [p.1; p.2]) (pairs ++ [(flag, v)])))
      (remove_character flag dash)
    = inr v.
Proof.
  intros Hwf Hv. unfold value, create; simpl. split; [by apply parse_pairs|].
  rewrite parse_pairs by (apply Forall_app; split; [done|by repeat constructor]).
  rewrite foldl_snoc; simpl. by rewrite lookup_insert_eq.
Qed.

Lemma parser_pairs_witness :
  Forall (λ p, nonzero (find p.2 "-") = true) more_examples.two_pairs
  ∧ nonzero (find "8" "-") = true
  ∧ value (create ("prog" :: flat_map (λ p, [p.1; p.2])
                              (more_examples.two_pairs ++ [("-n", "8")]))) "n"
    = inr "8".
Proof.
  assert (Hwf : Forall (λ p, nonzero (find p.2 "-") = true) more_examples.two_pairs)
    by (repeat constructor).
  split; [exact Hwf|]. split; [reflexivity|].
  apply (proj2 (parser_pairs "prog" more_examples.two_pairs "-n" "8" Hwf eq_refl)).
Defined.

(** X24. A token that begins with a dash is never taken as a value: on a
    command line whose tokens all begin with a dash every token is a switch
    with the empty value and nothing else is stored; and a flag followed by a
    token that begins with a dash (a negative number, say) gets the empty
    value, the token becoming a switch of its own. *)
Theorem parser_switches (prog : string) (args : list string) (key flag rest : string) :
  (Forall (λ arg, ∃ rest, arg = String dash rest) args →
     value (create (prog :: args)) key
     = if decide (key ∈ (λ arg, remove_character arg dash) <$> args)
       then inr ""
       else inl (std_runtime_error "input_parser::value() no matching input found"))
  ∧ value (create [prog; flag; String dash rest]) (remove_character flag dash) = inr ""
  ∧ value (create [prog; flag; String dash rest]) (remove_character rest dash) = inr "".
Proof.
  split; [|split].
  - intros Hd. unfold value, create; simpl.
    rewrite parse_switches, lookup_foldl_switches by done.
    destruct (decide _); [done|]. by rewrite lookup_empty.
  - unfold value, create.
    change (parse (tail [prog; flag; String dash rest]) ∅) with
      (if nonzero (find (String dash rest) "-")
       then parse [] (<[remove_character flag dash := String dash rest]> ∅)
       else parse [String dash rest] (<[remove_character flag dash := ""]> ∅)).
    assert (nonzero (find (String dash rest) "-") = false) as ->
      by (apply nonzero_find_dash; eauto).
    simpl. destruct (decide (dash = dash)); [|done].
    destruct (decide (remove_character flag dash = remove_character rest dash)) as [->|Hne].
    + by rewrite lookup_insert_eq.
    + by rewrite lookup_insert_ne, lookup_insert_eq.
  - unfold value, create.
    change (parse (tail [prog; flag; String dash rest]) ∅) with
      (if nonzero (find (String dash rest) "-")
       then parse [] (<[remove_character flag dash := String dash rest]> ∅)
       else parse [String dash rest] (<[remove_character flag dash := ""]> ∅)).
    assert (nonzero (find (String dash rest) "-") = false) as ->
      by (apply nonzero_find_dash; eauto).
    simpl. destruct (decide (dash = dash)); [|done].
    by rewrite lookup_insert_eq.
Qed.

Lemma parser_switches_witness :
  Forall (λ arg, ∃ rest, arg = String dash rest) ["-n"; "-5"]
  ∧ value (create ["prog"; "-n"; "-5"]) "n" = inr "".
Proof.
  assert (Hd : Forall (λ arg, ∃ rest, arg = String dash rest) ["-n"; "-5"]).
  { repeat constructor; eexists; reflexivity. }
  split; [exact Hd|].
  apply (proj1 (parser_switches "prog" ["-n"; "-5"] "n" "" "") Hd).
Defined.

(** X25. [value] throws exactly on the keys [contains] denies, with the
    [std::runtime_error] of the parser, and returns the stored value on the
    others; with no token after the name of the program every key is denied;
    and [add_help] changes neither. *)
Theorem parser_value_contains (p : t) (argv : list string) (key : string) :
  (contains p key = false
   ↔ value p key = inl (std_runtime_error "input_parser::value() no matching input found"))
  ∧ (contains p key = true ↔ ∃ v, value p key = inr v)
  ∧ ((length argv ≤ 1)%nat → contains (create argv) key = false)
  ∧ (∀ k name description,
       value (add_help p k name description) key = value p key
       ∧ contains (add_help p k name description) key = contains p key).
Proof.
  unfold value, contains. split; [|split; [|split]].
  - rewrite bool_decide_eq_false. destruct (m_arguments p !! key) as [v|].
    + split; [intros Hn; destruct Hn; eauto|done].
    + split; [done|]. by intros _ [? ?].
  - rewrite bool_decide_eq_true. destruct (m_arguments p !! key) as [v|].
    + split; eauto.
    + split; [by intros [? ?]|by intros [? ?]].
  - intros Hlen. apply bool_decide_eq_false.
    destruct argv as [|prog [|arg rest]]; simpl in *; [| |lia];
      rewrite lookup_empty; by intros [? ?].
  - done.
Qed.

Lemma parser_value_contains_witness :
  (length ["prog"] ≤ 1)%nat ∧ contains (create ["prog"]) "n" = false.
Proof.
  assert (Hlen : (length ["prog"] ≤ 1)%nat) by (simpl; lia).
  split; [exact Hlen|].
  apply (proj1 (proj2 (proj2
    (parser_value_contains (create ["prog"]) ["prog"] "n"))) Hlen).
Defined.

End input_parser_facts.
